(** * show-pass: field extraction from OCR text of tickets

    A shallow embedding of the parsing rules of [app.py] (event date, venue
    and title) together with the Python primitives they rest on: [str] as a
    sequence of Unicode code points, the [re] matcher (backtracking, greedy,
    leftmost), [int], [datetime.date] and the exceptions these raise.

    Logging calls of the source have no influence on the values returned
    and are left out. *)

From Stdlib Require Import ZArith Lia.
From stdpp Require Import base option list gmap strings.

Local Open Scope Z_scope.

(** ** Python values *)

Module Py.

(** A [str] is a sequence of code points. *)
Definition char : Type := Z.
Definition str : Type := list char.

(** Source literals are written as UTF-8 text and decoded to code points. *)
Definition byte_of (a : Ascii.ascii) : Z := Z.of_N (Ascii.N_of_ascii a).

Fixpoint bytes_of (s : string) : list Z :=
  match s with
  | String.EmptyString => []
  | String.String a s' => byte_of a :: bytes_of s'
  end.

Definition cont (b : Z) : Z := Z.land b 0x3F.

Fixpoint utf8_decode (bs : list Z) : str :=
  match bs with
  | [] => []
  | b0 :: t0 =>
    if b0 <? 0x80 then b0 :: utf8_decode t0
    else match t0 with
    | [] => []
    | b1 :: t1 =>
      if b0 <? 0xE0 then
        Z.lor (Z.shiftl (Z.land b0 0x1F) 6) (cont b1) :: utf8_decode t1
      else match t1 with
      | [] => []
      | b2 :: t2 =>
        if b0 <? 0xF0 then
          Z.lor (Z.shiftl (Z.land b0 0x0F) 12)
            (Z.lor (Z.shiftl (cont b1) 6) (cont b2)) :: utf8_decode t2
        else match t2 with
        | [] => []
        | b3 :: t3 =>
          Z.lor (Z.shiftl (Z.land b0 0x07) 18)
            (Z.lor (Z.shiftl (cont b1) 12)
               (Z.lor (Z.shiftl (cont b2) 6) (cont b3))) :: utf8_decode t3
        end
      end
    end
  end.

Definition u (s : string) : str := utf8_decode (bytes_of s).

(** *** Character classes of the Unicode database *)

(** [str.isspace] on one character; the same set is [\s] of [re] on [str]
    patterns. *)
Definition is_space (c : char) : bool :=
  ((0x09 <=? c) && (c <=? 0x0D)) || ((0x1C <=? c) && (c <=? 0x20))
  || (c =? 0x85) || (c =? 0xA0) || (c =? 0x1680)
  || ((0x2000 <=? c) && (c <=? 0x200A))
  || (c =? 0x2028) || (c =? 0x2029) || (c =? 0x202F) || (c =? 0x205F)
  || (c =? 0x3000).

(** Line boundaries of [str.splitlines]. *)
Definition is_linebreak (c : char) : bool :=
  ((0x0A <=? c) && (c <=? 0x0D)) || ((0x1C <=? c) && (c <=? 0x1E))
  || (c =? 0x85) || (c =? 0x2028) || (c =? 0x2029).

(** Decimal digits (general category Nd, Unicode 14): each entry is the code
    point of a digit zero and the number of digits that follow it in a row;
    the value of a digit is its offset from the zero, modulo ten. *)
Definition Nd_ranges : list (Z * Z) :=
  [ (0x30, 10); (0x660, 10); (0x6F0, 10); (0x7C0, 10); (0x966, 10);
    (0x9E6, 10); (0xA66, 10); (0xAE6, 10); (0xB66, 10); (0xBE6, 10);
    (0xC66, 10); (0xCE6, 10); (0xD66, 10); (0xDE6, 10); (0xE50, 10);
    (0xED0, 10); (0xF20, 10); (0x1040, 10); (0x1090, 10); (0x17E0, 10);
    (0x1810, 10); (0x1946, 10); (0x19D0, 10); (0x1A80, 10); (0x1A90, 10);
    (0x1B50, 10); (0x1BB0, 10); (0x1C40, 10); (0x1C50, 10); (0xA620, 10);
    (0xA8D0, 10); (0xA900, 10); (0xA9D0, 10); (0xA9F0, 10); (0xAA50, 10);
    (0xABF0, 10); (0xFF10, 10); (0x104A0, 10); (0x10D30, 10); (0x11066, 10);
    (0x110F0, 10); (0x11136, 10); (0x111D0, 10); (0x112F0, 10);
    (0x11450, 10); (0x114D0, 10); (0x11650, 10); (0x116C0, 10);
    (0x11730, 10); (0x118E0, 10); (0x11950, 10); (0x11C50, 10);
    (0x11D50, 10); (0x11DA0, 10); (0x16A60, 10); (0x16AC0, 10);
    (0x16B50, 10); (0x1D7CE, 50); (0x1E140, 10); (0x1E2F0, 10);
    (0x1E950, 10); (0x1FBF0, 10) ].

Fixpoint decimal_in (rs : list (Z * Z)) (c : char) : option Z :=
  match rs with
  | [] => None
  | (z, n) :: rs' =>
    if (z <=? c) && (c <? z + n) then Some ((c - z) mod 10)
    else decimal_in rs' c
  end.

(** The decimal value of a character, when it is a decimal digit. *)
Definition decimal (c : char) : option Z := decimal_in Nd_ranges c.

(** [\d] of [re] on [str] patterns. *)
Definition is_digit (c : char) : bool :=
  match decimal c with Some _ => true | None => false end.

Definition is_ascii_upper (c : char) : bool := (0x41 <=? c) && (c <=? 0x5A).
Definition is_ascii_lower (c : char) : bool := (0x61 <=? c) && (c <=? 0x7A).
Definition is_ascii_alpha (c : char) : bool :=
  is_ascii_upper c || is_ascii_lower c.

(** *** Operations on [str] *)

Fixpoint startswith (p s : str) : bool :=
  match p, s with
  | [], _ => true
  | _ :: _, [] => false
  | a :: p', b :: s' => (a =? b) && startswith p' s'
  end.

(** [sub in s]: substring containment. *)
Fixpoint str_in (sub s : str) : bool :=
  startswith sub s ||
  match s with
  | [] => false
  | _ :: s' => str_in sub s'
  end.

Fixpoint lstrip (s : str) : str :=
  match s with
  | [] => []
  | c :: s' => if is_space c then lstrip s' else s
  end.

Definition rstrip (s : str) : str := rev (lstrip (rev s)).

(** [s.strip()] *)
Definition strip (s : str) : str := rstrip (lstrip s).

(** [s.splitlines()]: [cur] is the line being read, in reverse. A carriage
    return followed by a line feed is one boundary; no empty last line is
    produced after a final boundary. *)
Fixpoint splitlines_from (cur : str) (s : str) : list str :=
  match s with
  | [] => match cur with [] => [] | _ => [rev cur] end
  | c :: s' =>
    if is_linebreak c then
      match s' with
      | c' :: s'' =>
        if (c =? 0x0D) && (c' =? 0x0A) then rev cur :: splitlines_from [] s''
        else rev cur :: splitlines_from [] s'
      | [] => rev cur :: splitlines_from [] s'
      end
    else splitlines_from (c :: cur) s'
  end.

Definition splitlines (s : str) : list str := splitlines_from [] s.

(** [sep.join(parts)] *)
Fixpoint join (sep : str) (parts : list str) : str :=
  match parts with
  | [] => []
  | [p] => p
  | p :: ps => p ++ sep ++ join sep ps
  end.

(** [s.isupper()] for a string of ASCII letters: at least one cased
    character and none of them lower case. *)
Definition isupper_ascii (s : str) : bool :=
  existsb is_ascii_upper s && negb (existsb is_ascii_lower s).

(** *** Exceptions *)

Inductive exn : Type := ValueError | TypeError | KeyError.

Inductive res (A : Type) : Type :=
| Ok (a : A)
| Raise (e : exn).
Arguments Ok {A} a.
Arguments Raise {A} e.

Definition bind {A B : Type} (m : res A) (f : A -> res B) : res B :=
  match m with
  | Ok a => f a
  | Raise e => Raise e
  end.

#[global] Instance res_ret : MRet res := @Ok.
#[global] Instance res_bind : MBind res := fun A B f m => bind m f.

(** [for x in xs: acc = body(acc, x)], where the body may raise. *)
Fixpoint for_each {A S : Type} (body : S -> A -> res S) (xs : list A) (acc : S)
  : res S :=
  match xs with
  | [] => Ok acc
  | x :: xs' => bind (body acc x) (for_each body xs')
  end.

(** *** [int] *)

(** The value of a string of decimal digits, read left to right in base
    ten. *)
Fixpoint decimal_value (acc : Z) (s : str) : option Z :=
  match s with
  | [] => Some acc
  | c :: s' =>
    match decimal c with
    | Some v => decimal_value (10 * acc + v) s'
    | None => None
    end
  end.

(** [int(x)] reads a string in four steps, as CPython does. White space
    and decimal digits beyond ASCII are first made a space and the ASCII
    digit of the same value; the reading stops at any other character beyond
    ASCII, which leaves a question mark that nothing accepts. A string of
    ASCII characters is taken as it is. *)
Fixpoint to_ascii (s : str) : str :=
  match s with
  | [] => []
  | c :: s' =>
    if c <? 127 then c :: to_ascii s'
    else if is_space c then 0x20 :: to_ascii s'
    else
      match decimal c with
      | Some v => (0x30 + v) :: to_ascii s'
      | None => [0x3F]
      end
  end.

(** The white space that is skipped before and after the number. *)
Definition is_ascii_space (c : char) : bool :=
  ((0x09 <=? c) && (c <=? 0x0D)) || (c =? 0x20).

Fixpoint skip_spaces (s : str) : str :=
  match s with
  | c :: s' => if is_ascii_space c then skip_spaces s' else s
  | [] => []
  end.

(** The digits, with single underscores allowed between them: [prev] tells
    that the last character read was an underscore, [acc] is the value and
    [n] the number of the digits read so far. The result has what follows
    the digits. Two underscores in a row, or one at the end, are refused. *)
Fixpoint scan_digits (s : str) (prev : bool) (acc : Z) (n : Z)
  : option (Z * Z * str) :=
  match s with
  | c :: s' =>
    if (0x30 <=? c) && (c <=? 0x39) then
      scan_digits s' false (10 * acc + (c - 0x30)) (n + 1)
    else if c =? 0x5F then
      if prev then None else scan_digits s' true acc n
    else if prev then None else Some (acc, n, s)
  | [] => if prev then None else Some (acc, n, s)
  end.

(** The greatest number of digits that [int] reads, with the default
    setting of [sys.set_int_max_str_digits]. *)
Definition INT_MAX_STR_DIGITS : Z := 4300.

Definition head_is (c : char) (s : str) : bool :=
  match s with
  | c' :: _ => c' =? c
  | [] => false
  end.

(** The value of a literal in base ten: white space, a sign, the digits,
    white space, and nothing else. The digits do not begin with an
    underscore, and there is one digit at least. *)
Definition int_literal (s : str) : option Z :=
  let a := if forallb (fun c => c <? 128) s then s else to_ascii s in
  let a := skip_spaces a in
  let negative := head_is 0x2D a in
  let a := if head_is 0x2B a || head_is 0x2D a then tail a else a in
  if head_is 0x5F a then None
  else
    match scan_digits a false 0 0 with
    | Some (v, n, rest) =>
      if n =? 0 then None
      else if INT_MAX_STR_DIGITS <? n then None
      else
        match skip_spaces rest with
        | [] => Some (if negative then - v else v)
        | _ => None
        end
    | None => None
    end.

(** [int(x)] for [x] either [None] or a string. *)
Definition int_of (x : option str) : res Z :=
  match x with
  | None => Raise TypeError
  | Some s =>
    match int_literal s with
    | Some n => Ok n
    | None => Raise ValueError
    end
  end.

(** *** [datetime.date] *)

Record date : Type := mkdate { year : Z; month : Z; day : Z }.

Definition is_leap (y : Z) : bool :=
  (y mod 4 =? 0) && (negb (y mod 100 =? 0) || (y mod 400 =? 0)).

Definition days_in_month (y m : Z) : Z :=
  if m =? 2 then (if is_leap y then 29 else 28)
  else if (m =? 4) || (m =? 6) || (m =? 9) || (m =? 11) then 30
  else 31.

Definition valid_date (y m d : Z) : bool :=
  (1 <=? y) && (y <=? 9999) && (1 <=? m) && (m <=? 12)
  && (1 <=? d) && (d <=? days_in_month y m).

(** [date(y, m, d)] raises [ValueError] outside the calendar. *)
Definition date_new (y m d : Z) : res date :=
  if valid_date y m d then Ok (mkdate y m d) else Raise ValueError.

(** [a > b] on dates: year, then month, then day. *)
Definition date_gt (a b : date) : bool :=
  (year b <? year a)
  || ((year b =? year a)
      && ((month b <? month a)
          || ((month b =? month a) && (day b <? day a)))).

Definition digit_char (d : Z) : char := 0x30 + d.

(** Decimal numeral of a natural number below 10^[n], on [n] digits. *)
Fixpoint numeral (n : nat) (x : Z) : str :=
  match n with
  | O => []
  | S n' => numeral n' (x / 10) ++ [digit_char (x mod 10)]
  end.

(** [d.strftime("%Y-%m-%d")]; [%Y] has four digits for the years 1000 to
    9999, the only ones this program builds. *)
Definition strftime_ymd (d : date) : str :=
  numeral 4 (year d) ++ [0x2D] ++ numeral 2 (month d) ++ [0x2D]
  ++ numeral 2 (day d).

(** [max(xs, default=None)]: the first of the greatest elements. *)
Fixpoint max_from (best : date) (xs : list date) : date :=
  match xs with
  | [] => best
  | x :: xs' => max_from (if date_gt x best then x else best) xs'
  end.

Definition max_default (xs : list date) : option date :=
  match xs with
  | [] => None
  | x :: xs' => Some (max_from x xs')
  end.

End Py.

(** ** The [re] matcher *)

Module Re.
Import Py.

(** Patterns, as far as this program writes them: every repetition is over
    a single-character class. *)
Inductive regex : Type :=
| Eps
| Lit (c : char)
| Cls (p : char -> bool)
| Cat (r1 r2 : regex)
| Alt (r1 r2 : regex)
| Rep (lo : nat) (hi : option nat) (p : char -> bool)
| Opt (r : regex)
| Grp (name : string) (r : regex).

(** A compiled pattern with its [re.IGNORECASE] flag. *)
Record pattern : Type := compile { ast : regex; ignorecase : bool }.

(** The named groups that took part in a match, most recent first, each with
    the offsets where it starts and ends, counted from the start of the
    match. *)
Definition caps : Type := list (string * (nat * nat)).

Definition ascii_lower (c : char) : char :=
  if is_ascii_upper c then c + 32 else c.

(** A literal of the pattern against a character of the text. With
    [re.IGNORECASE] both are compared in lower case, and [s] also matches
    the long s (U+017F). Lower case is taken on ASCII only: the literals of
    this program are ASCII letters other than [i] and [k], and characters
    without case, and no character outside ASCII lowers to one of those. *)
Definition lit_match (ic : bool) (c ch : char) : bool :=
  if ic then
    (ascii_lower ch =? ascii_lower c)
    || ((ascii_lower c =? 0x73) && (ch =? 0x17F))
  else ch =? c.

Definition below (hi : option nat) : bool :=
  match hi with Some O => false | _ => true end.

Definition dec (hi : option nat) : option nat :=
  match hi with Some n => Some (pred n) | None => None end.

(** The end of a repetition: allowed once [lo] characters were taken. *)
Definition rep_stop {R : Type} (lo : nat) (s : str) (pos : nat)
  (k : str -> nat -> option R) : option R :=
  match lo with
  | O => k s pos
  | S _ => None
  end.

(** Greedy repetition of a class: as many characters as allowed, then one
    fewer each time the rest of the pattern fails. *)
Fixpoint rep {R : Type} (p : char -> bool) (lo : nat) (hi : option nat)
  (s : str) (pos : nat) (k : str -> nat -> option R) : option R :=
  match s with
  | [] => rep_stop lo s pos k
  | c :: s' =>
    if p c && below hi then
      match rep p (pred lo) (dec hi) s' (S pos) k with
      | Some x => Some x
      | None => rep_stop lo s pos k
      end
    else rep_stop lo s pos k
  end.

(** Backtracking match of [r] at the head of [s], which stands at offset
    [pos] from the start of the match; [k] is the rest of the pattern.
    Alternatives are tried left to right. *)
Fixpoint run {R : Type} (ic : bool) (r : regex) (s : str) (pos : nat)
  (g : caps) (k : str -> nat -> caps -> option R) : option R :=
  match r with
  | Eps => k s pos g
  | Lit c =>
    match s with
    | ch :: s' => if lit_match ic c ch then k s' (S pos) g else None
    | [] => None
    end
  | Cls p =>
    match s with
    | ch :: s' => if p ch then k s' (S pos) g else None
    | [] => None
    end
  | Cat r1 r2 => run ic r1 s pos g (fun s' pos' g' => run ic r2 s' pos' g' k)
  | Alt r1 r2 =>
    match run ic r1 s pos g k with
    | Some x => Some x
    | None => run ic r2 s pos g k
    end
  | Rep lo hi p => rep p lo hi s pos (fun s' pos' => k s' pos' g)
  | Opt r1 =>
    match run ic r1 s pos g k with
    | Some x => Some x
    | None => k s pos g
    end
  | Grp name r1 =>
    run ic r1 s pos g (fun s' pos' g' => k s' pos' ((name, (pos, pos')) :: g'))
  end.

(** The match at the head of [s], if any: its length and its groups. *)
Definition match_at (p : pattern) (s : str) : option (nat * caps) :=
  run (ignorecase p) (ast p) s 0 [] (fun _ pos g => Some (pos, g)).

Fixpoint group_names (r : regex) : list string :=
  match r with
  | Eps | Lit _ | Cls _ | Rep _ _ _ => []
  | Cat r1 r2 | Alt r1 r2 => group_names r1 ++ group_names r2
  | Opt r1 => group_names r1
  | Grp name r1 => name :: group_names r1
  end.

Fixpoint captured (g : caps) (name : string) : option (nat * nat) :=
  match g with
  | [] => None
  | (n, w) :: g' => if String.eqb n name then Some w else captured g' name
  end.

(** [s[b:e]] *)
Definition slice (s : str) (b e : nat) : str := take (e - b) (drop b s).

(** A match object: where it starts and ends in the text, and its
    [groupdict()], which has every named group of the pattern as a key and
    [None] for a group that took no part in the match. *)
Record match_obj : Type := mkmatch {
  m_start : nat;
  m_end : nat;
  groupdict : gmap string (option str)
}.

(** The [groupdict()] of a match at the head of [s] with groups [g]. *)
Definition groupdict_of (r : regex) (s : str) (g : caps)
  : gmap string (option str) :=
  foldr (fun n d => <[n := (fun w => slice s w.1 w.2) <$> captured g n]> d) ∅
    (group_names r).

(** [p.finditer(s)]: the matches from left to right, none overlapping.
    [pos] is the offset of [s] in the text and [skip] the number of
    characters still covered by the last match. The patterns of this program
    read at least one character; a match of no character would be reported
    and the scan moved on by one character. *)
Fixpoint scan (p : pattern) (s : str) (pos skip : nat) : list match_obj :=
  match s with
  | [] => []
  | _ :: s' =>
    match skip with
    | S skip' => scan p s' (S pos) skip'
    | O =>
      match match_at p s with
      | Some (len, g) =>
        mkmatch pos (pos + len) (groupdict_of (ast p) s g)
          :: scan p s' (S pos) (pred len)
      | None => scan p s' (S pos) O
      end
    end
  end.

Definition finditer (p : pattern) (s : str) : list match_obj := scan p s 0 0.

(** [p.search(s)]: the leftmost match. *)
Definition search (p : pattern) (s : str) : option match_obj :=
  head (finditer p s).

(** [p.sub(repl, s)] for a plain replacement text. *)
Fixpoint sub_from (p : pattern) (repl : str) (s : str) (skip : nat) : str :=
  match s with
  | [] => []
  | c :: s' =>
    match skip with
    | S skip' => sub_from p repl s' skip'
    | O =>
      match match_at p s with
      | Some (O, _) => c :: sub_from p repl s' O
      | Some (S n, _) => repl ++ sub_from p repl s' n
      | None => c :: sub_from p repl s' O
      end
    end
  end.

Definition sub (p : pattern) (repl : str) (s : str) : str :=
  sub_from p repl s 0.

(** *** Writing patterns *)

Definition seq (rs : list regex) : regex := foldr Cat Eps rs.

Fixpoint alts (rs : list regex) : regex :=
  match rs with
  | [] => Cls (fun _ => false)
  | [r] => r
  | r :: rs' => Alt r (alts rs')
  end.

(** A run of literal characters. *)
Definition lit (s : string) : regex := seq (Lit <$> u s).

(** [[...]] and [[^...]] over listed characters. *)
Definition one_of (s : string) : regex := Cls (fun c => existsb (Z.eqb c) (u s)).
Definition not_in (s : string) : char -> bool :=
  fun c => negb (existsb (Z.eqb c) (u s)).

(** [\d{lo,hi}] and [\s*]. *)
Definition digits (lo hi : nat) : regex := Rep lo (Some hi) is_digit.
Definition spaces : regex := Rep 0 None is_space.

End Re.

(** ** The parsing rules of [app.py] *)

Module App.
Import Py Re.

Definition VENUE_WORDS : list str :=
  u <$> [ "日本武道館"; "東京巨蛋"; "代代木第一體育館"; "橫濱体育館"; "大阪城Hall";
          "東急シアターオーブ"; "東京国際フォーラム"; "東京ドームシティホール" ]%string.

(** [20\d{2}] *)
Definition year4 : regex := seq [lit "20"; digits 2 2].

(** The three date patterns, in the order of [DATE_REGEXES]:
    2025年8月10日, 2025-8-10, 2025.8.10 / 8月10日 2025年 / 25年8月10日. *)
Definition DATE_YMD : pattern :=
  compile
    (seq [ Grp "y" year4; spaces; one_of "./年-"; spaces;
           Grp "m" (digits 1 2); spaces; one_of "./月-"; spaces;
           Grp "d" (digits 1 2) ]) false.

Definition DATE_MDY : pattern :=
  compile
    (seq [ Grp "m" (digits 1 2); spaces; lit "月"; spaces;
           Grp "d" (digits 1 2); spaces; lit "日";
           Opt (seq [lit "("; Rep 1 None (not_in ")"); lit ")"]);
           spaces; Grp "y" year4; spaces; Opt (lit "年") ]) false.

Definition DATE_YY : pattern :=
  compile
    (seq [ Grp "y2" (digits 2 2); spaces; lit "年"; spaces;
           Grp "m" (digits 1 2); spaces; lit "月"; spaces;
           Grp "d" (digits 1 2) ]) false.

Definition DATE_REGEXES : list pattern := [DATE_YMD; DATE_MDY; DATE_YY].

Definition TITLE_KEYWORDS : list str :=
  u <$> [ "ミュージカル"; "コンサート"; "ライブ"; "公演"; "レ・ミゼラブル";
          "LES MISERABLES"; "WORLD TOUR"; "ワールドツアー"; "スペクタキュラー";
          "スペクタクル" ]%string.

Definition TITLE_STOP_PAT : pattern :=
  compile
    (alts [ lit "主催"; lit "招聘"; lit "製作"; lit "制作"; lit "共同制作";
            lit "企画"; lit "協賛"; lit "協力"; lit "お問い合わせ";
            lit "お問合せ"; lit "問合せ"; seq [lit "HP"; one_of ":："];
            seq [lit "http"; Opt (lit "s"); lit "://"];
            seq [lit "TEL"; one_of ":："];
            lit "発券店"; lit "払込票"; lit "指定席"; lit "自由席"; lit "席";
            lit "扉"; lit "列"; lit "番"; lit "消費税込"; lit "特定チケット";
            lit "転売"; lit "CNプレイガイド"; lit "セブン-イレブン" ])
    true.

(** [_to_int(s, default)]: any exception of [int] gives the default. *)
Definition _to_int (s : option str) (default : option Z) : option Z :=
  match int_of s with
  | Ok n => Some n
  | Raise _ => default
  end.

(** [gd.get(k)] and [gd[k]] on a [groupdict()]. *)
Definition dict_get (gd : gmap string (option str)) (k : string) : option str :=
  default None (gd !! k).

Definition getitem (gd : gmap string (option str)) (k : string)
  : res (option str) :=
  match gd !! k with
  | Some v => Ok v
  | None => Raise KeyError
  end.

(** Truth value of a string or [None], and of an integer or [None]. *)
Definition truthy_str (x : option str) : bool :=
  match x with Some (_ :: _) => true | _ => false end.

Definition truthy_int (x : option Z) : bool :=
  match x with Some n => negb (n =? 0) | None => false end.

(** [a + b] where [b] may be [None]. *)
Definition add_int (a : Z) (b : option Z) : res Z :=
  match b with
  | Some n => Ok (a + n)
  | None => Raise TypeError
  end.

(** The year of a match: group [y], else [2000 +] group [y2], else [None]. *)
Definition match_year (gd : gmap string (option str)) : res (option Z) :=
  if truthy_str (dict_get gd "y") then
    v ← getitem gd "y"; Ok (_to_int v None)
  else if truthy_str (dict_get gd "y2") then
    v ← getitem gd "y2"; n ← add_int 2000 (_to_int v (Some 0)); Ok (Some n)
  else Ok None.

(** The body of the inner loop of [_collect_dates] for one match [m]: [out]
    is the list built so far. The [ValueError] of [date] is caught and the
    match skipped. *)
Definition collect_match (out : list (date * nat)) (m : match_obj)
  : res (list (date * nat)) :=
  let gd := groupdict m in
  y ← match_year gd;
  let M := _to_int (dict_get gd "m") None in
  let d := _to_int (dict_get gd "d") None in
  if truthy_int y && truthy_int M && truthy_int d then
    match y, M, d with
    | Some y', Some M', Some d' =>
      match date_new y' M' d' with
      | Ok dt => Ok (out ++ [(dt, m_start m)])
      | Raise ValueError => Ok out
      | Raise e => Raise e
      end
    | _, _, _ => Raise TypeError
    end
  else Ok out.

Definition _collect_dates (text : str) : res (list (date * nat)) :=
  for_each (fun out rgx => for_each collect_match (finditer rgx text) out)
    DATE_REGEXES [].

(** The returned dict has the single key [event_date]. *)
Definition parse_datetime (text : str) : res (gmap string (option str)) :=
  dates ← _collect_dates text;
  let event_date := max_default (fst <$> dates) in
  Ok {[ "event_date" := strftime_ymd <$> event_date ]}.

Definition parse_venue (text : str) : option str :=
  snd <$> list_find (fun v => Is_true (str_in v text)) VENUE_WORDS.

(** [[^A-Za-z]] *)
Definition NON_LETTER : pattern :=
  compile (Cls (fun c => negb (is_ascii_alpha c))) false.

Definition _is_upper_english (s : str) : bool :=
  let letters := sub NON_LETTER [] s in
  (4 <=? length letters)%nat && isupper_ascii letters.

Definition has_keyword (ln : str) : bool :=
  existsb (fun k => str_in k ln) TITLE_KEYWORDS.

(** A line that may be part of a title: a keyword, a Japanese quotation
    bracket, or upper-case Latin. *)
Definition title_like (ln : str) : bool :=
  has_keyword ln || (str_in (u "『") ln || str_in (u "』") ln)
  || _is_upper_english ln.

Definition is_stop (ln : str) : bool :=
  match search TITLE_STOP_PAT ln with Some _ => true | None => false end.

(** The [while i < n] loop of [parse_title]: [rest] is [lines[i:]] and
    [parts] the lines accepted so far. *)
Fixpoint walk (rest : list str) (parts : list str) : list str :=
  match rest with
  | [] => parts
  | ln :: rest' =>
    if is_stop ln then parts
    else if title_like ln then
      let parts' := parts ++ [ln] in
      if (3 <=? length parts')%nat then parts' else walk rest' parts'
    else parts
  end.

(** [\s+] *)
Definition SPACES1 : pattern := compile (Rep 1 None is_space) false.

(** The trimmed, non-empty lines of the text. *)
Definition title_lines (text : str) : list str :=
  strip <$> List.filter (fun ln => truthy_str (Some (strip ln))) (splitlines text).

(** The index of the first line with a keyword; [None] stands for the
    [-1] of the source. *)
Definition find_start (lines : list str) : option nat :=
  fst <$> list_find (fun ln => Is_true (has_keyword ln)) lines.

(** The lines joined into the title, before normalisation. *)
Definition title_parts (lines : list str) (start : nat) : list str :=
  walk (drop start lines) [].

Definition parse_title (text : str) : option str :=
  let lines := title_lines text in
  match find_start lines with
  | None => snd <$> list_find (fun ln => Is_true (_is_upper_english ln)) lines
  | Some start =>
    let parts := title_parts lines start in
    let title := strip (join (u " ") parts) in
    let title := sub SPACES1 (u " ") title in
    if truthy_str (Some title) then Some title else None
  end.

End App.

(** ** The request handler of [app.py] *)

Module Api.
Import Py Re App.

Definition bytes : Type := list Z.

(** What a call gives to [api_ocr]: a value, or an exception with its class
    and [str(e)]. The text of a message is given where the program writes
    it, and left out where it is the library's. *)
Inductive outcome (A : Type) : Type :=
| Return (a : A)
| Throw (cls : string) (msg : option str).
Arguments Return {A} a.
Arguments Throw {A} cls msg.

#[global] Instance outcome_ret : MRet outcome := @Return.
#[global] Instance outcome_bind : MBind outcome :=
  fun A B f m =>
    match m with
    | Return a => f a
    | Throw cls msg => Throw cls msg
    end.

Definition exn_class (e : exn) : string :=
  match e with
  | ValueError => "ValueError"
  | TypeError => "TypeError"
  | KeyError => "KeyError"
  end.

Definition lift {A : Type} (r : res A) : outcome A :=
  match r with
  | Ok a => Return a
  | Raise e => Throw (exn_class e) None
  end.

(** The values that [get_json] gives; of a float only whether it is zero
    is kept. [VDict d] lists the items of the dict. *)
#[local] Unset Elimination Schemes.
Inductive pyval : Type :=
| VNone
| VBool (b : bool)
| VInt (n : Z)
| VFloat (nonzero : bool)
| VStr (s : str)
| VList (l : list pyval)
| VDict (d : list (str * pyval)).
#[local] Set Elimination Schemes.

Definition truthy (v : pyval) : bool :=
  match v with
  | VNone => false
  | VBool b => b
  | VInt n => negb (n =? 0)
  | VFloat nonzero => nonzero
  | VStr s => truthy_str (Some s)
  | VList l => match l with [] => false | _ => true end
  | VDict d => match d with [] => false | _ => true end
  end.

Definition str_eqb (a b : str) : bool := bool_decide (a = b).

Fixpoint assoc (k : str) (d : list (str * pyval)) : option pyval :=
  match d with
  | [] => None
  | (k', v) :: d' => if str_eqb k' k then Some v else assoc k d'
  end.

(** [data.get(k)] *)
Definition py_get (data : pyval) (k : str) : outcome pyval :=
  match data with
  | VDict d => Return (default VNone (assoc k d))
  | _ => Throw "AttributeError" None
  end.

(** [k in v] for a string [k] *)
Definition py_in (k : str) (v : pyval) : outcome bool :=
  match v with
  | VStr s => Return (str_in k s)
  | VList l =>
    Return (existsb (fun x => match x with VStr s => str_eqb s k | _ => false end) l)
  | VDict d => Return (match assoc k d with Some _ => true | None => false end)
  | _ => Throw "TypeError" None
  end.

(** [v.strip()] *)
Definition py_strip (v : pyval) : outcome str :=
  match v with
  | VStr s => Return (strip s)
  | _ => Throw "AttributeError" None
  end.

(** [s.split(sep)] for a separator of one character. *)
Fixpoint split_from (sep : char) (cur : str) (s : str) : list str :=
  match s with
  | [] => [rev cur]
  | c :: s' =>
    if c =? sep then rev cur :: split_from sep [] s'
    else split_from sep (c :: cur) s'
  end.

Definition split (sep : char) (s : str) : list str := split_from sep [] s.

(** [s.split(sep, 1)] *)
Fixpoint split1_from (sep : char) (cur : str) (s : str) : list str :=
  match s with
  | [] => [rev cur]
  | c :: s' =>
    if c =? sep then [rev cur; s'] else split1_from sep (c :: cur) s'
  end.

Definition split1 (sep : char) (s : str) : list str := split1_from sep [] s.

(** [l[i]] *)
Definition item {A : Type} (l : list A) (i : nat) : outcome A :=
  match l !! i with
  | Some x => Return x
  | None => Throw "IndexError" None
  end.

(** A request: the uploaded files by field name, each with what [read()]
    gives, and what [get_json(silent=True)] gives. *)
Record request : Type := mkrequest {
  files : gmap string bytes;
  get_json : pyval
}.

(** The language hints of [api_ocr], from the text of the environment
    variable. *)
Definition language_hints (lang_str : str) : list str :=
  strip <$> List.filter (fun s => truthy_str (Some (strip s))) (split 0x2C lang_str).

(** The body and the status of a response. *)
Inductive body : Type :=
| BodyOk (raw_text : str) (fields : gmap string (option str))
| BodyError (error : option str).

Definition NO_OCR_RESULT : str :=
  u "[No OCR result - Vision client not available]".

(** The fields of the response: the dict of [parse_datetime] with the venue
    and the title added. *)
Definition fields_of (raw_text : str) : res (gmap string (option str)) :=
  fields ← parse_datetime raw_text;
  let fields := <["venue" := parse_venue raw_text]> fields in
  let fields := <["title" := parse_title raw_text]> fields in
  Ok fields.

Section Externals.

(** What the program takes from outside: [base64.b64decode], the flag and
    the text of the fake file, the environment variable of the hints, and
    the OCR service behind [run_vision_ocr]. *)
Variable b64decode : str -> outcome bytes.
Variable USE_FAKE_TEXT : bool.
Variable load_fake_text : outcome str.
Variable OCR_LANGUAGE_HINTS : option str.
Variable run_vision_ocr : bytes -> list str -> outcome str.

Definition read_image_bytes (req : request) : outcome bytes :=
  match files req !! "image" with
  | Some content => Return content
  | None =>
    let data := if truthy (get_json req) then get_json req else VDict [] in
    b64 ← py_get data (u "image_base64");
    if negb (truthy b64) then Throw "ValueError" (Some (u "No image provided"))
    else
      has_comma ← py_in (u ",") b64;
      (if has_comma : bool then
         stripped ← py_strip b64; Return (startswith (u "data:") stripped)
       else Return false) ≫= fun is_data_uri : bool =>
      (if is_data_uri then
         match b64 with
         | VStr s => rest ← item (split1 0x2C s) 1; Return (VStr rest)
         | _ => Throw "AttributeError" None
         end
       else Return b64) ≫= fun b64 : pyval =>
      match b64 with
      | VStr s => b64decode s
      | _ => Throw "TypeError" None
      end
  end.

(** The text that [api_ocr] parses. *)
Definition obtain_text (req : request) : outcome str :=
  if USE_FAKE_TEXT then
    raw_text ← load_fake_text;
    if negb (truthy_str (Some raw_text)) then
      Throw "RuntimeError" (Some (u "FAKE_TEXT_FILE not found or empty"))
    else Return raw_text
  else
    img_bytes ← read_image_bytes req;
    let lang_str := default (u "ja,zh-Hant,en") OCR_LANGUAGE_HINTS in
    let hints := language_hints lang_str in
    raw_text ← run_vision_ocr img_bytes hints;
    Return (if negb (truthy_str (Some raw_text)) then NO_OCR_RESULT else raw_text).

Definition api_ocr (req : request) : body * Z :=
  match
    raw_text ← obtain_text req;
    fields ← lift (fields_of raw_text);
    Return (raw_text, fields)
  with
  | Return (raw_text, fields) => (BodyOk raw_text fields, 200)
  | Throw _ msg => (BodyError msg, 400)
  end.

End Externals.

End Api.

Import Py Re App.

(** ** Notions used to state the properties *)

(** The year, month and day read from a match, when all three are
    integers. *)
Definition match_numbers (m : match_obj) : option (Z * Z * Z) :=
  let gd := groupdict m in
  match match_year gd, _to_int (dict_get gd "m") None,
        _to_int (dict_get gd "d") None with
  | Ok (Some y), Some M, Some d => Some (y, M, d)
  | _, _, _ => None
  end.

(** What a match contributes: its date and offset when the numbers are a
    date of the calendar, nothing otherwise. *)
Definition validated (m : match_obj) : list (date * nat) :=
  match match_numbers m with
  | Some (y, M, d) =>
    if valid_date y M d then [(mkdate y M d, m_start m)] else []
  | None => []
  end.

(** All matches in the order in which [_collect_dates] visits them: pattern
    by pattern, and left to right for each. *)
Definition date_matches (text : str) : list match_obj :=
  flat_map (fun rgx => finditer rgx text) DATE_REGEXES.

(** The candidate dates of a text: the dates of the list that
    [_collect_dates] returns. *)
Definition candidates (text : str) : list date :=
  match _collect_dates text with
  | Ok dates => dates.*1
  | Raise _ => []
  end.

(** A validated date of a text: the date of a match of one of the three
    patterns whose numbers are a date of the calendar. *)
Definition valid_match_date (text : str) (D : date) : Prop :=
  ∃ (m : match_obj) (y M d : Z),
    m ∈ date_matches text ∧ match_numbers m = Some (y, M, d)
    ∧ valid_date y M d = true ∧ D = mkdate y M d.

(** The first match of a text for a pattern. *)
Definition first_match (p : pattern) (text : str) : match_obj :=
  default (mkmatch 0 0 ∅) (head (finditer p text)).

(** [sub] occurs in [s]. *)
Definition contains (sub s : str) : Prop := ∃ pre post, s = pre ++ sub ++ post.

(** [consumes ic r s pos s' pos' g g']: the pattern [r] can read [s] down
    to [s'], from offset [pos] to offset [pos'], taking the groups from [g]
    to [g']. *)
Fixpoint consumes (ic : bool) (r : regex) (s : str) (pos : nat)
  (s' : str) (pos' : nat) (g g' : caps) : Prop :=
  match r with
  | Eps => s' = s ∧ pos' = pos ∧ g' = g
  | Lit c =>
    ∃ ch, s = ch :: s' ∧ pos' = S pos ∧ lit_match ic c ch = true ∧ g' = g
  | Cls p => ∃ ch, s = ch :: s' ∧ pos' = S pos ∧ p ch = true ∧ g' = g
  | Cat r1 r2 =>
    ∃ s1 pos1 g1,
      consumes ic r1 s pos s1 pos1 g g1 ∧ consumes ic r2 s1 pos1 s' pos' g1 g'
  | Alt r1 r2 =>
    consumes ic r1 s pos s' pos' g g' ∨ consumes ic r2 s pos s' pos' g g'
  | Rep lo hi p =>
    ∃ w, s = w ++ s' ∧ pos' = (pos + length w)%nat
         ∧ Forall (fun c => p c = true) w
         ∧ (lo ≤ length w)%nat
         ∧ (∀ n, hi = Some n → (length w ≤ n)%nat)
         ∧ g' = g
  | Opt r1 =>
    consumes ic r1 s pos s' pos' g g' ∨ (s' = s ∧ pos' = pos ∧ g' = g)
  | Grp name r1 =>
    ∃ g1, consumes ic r1 s pos s' pos' g g1 ∧ g' = (name, (pos, pos')) :: g1
  end.

(** The least number of characters a pattern reads. *)
Fixpoint min_len (r : regex) : nat :=
  match r with
  | Eps | Opt _ => 0
  | Lit _ | Cls _ => 1
  | Cat r1 r2 => min_len r1 + min_len r2
  | Alt r1 r2 => min_len r1 `min` min_len r2
  | Rep lo _ _ => lo
  | Grp _ r1 => min_len r1
  end.

(** A text without decimal digits. *)
Definition no_digit (s : str) : Prop := Forall (fun c => is_digit c = false) s.

(** Shape of a title: it does not begin or end with white space, and each
    white space character in it is one space standing alone. *)
Definition starts_with_space (s : str) : bool :=
  match s with
  | c :: _ => is_space c
  | [] => false
  end.

Definition trimmed (s : str) : bool :=
  negb (starts_with_space s) && negb (starts_with_space (rev s)).

Fixpoint runs_collapsed (s : str) : bool :=
  match s with
  | [] => true
  | c :: s' =>
    (if is_space c then (c =? 0x20) && negb (starts_with_space s') else true)
    && runs_collapsed s'
  end.

Definition normalized (s : str) : bool :=
  truthy_str (Some s) && trimmed s && runs_collapsed s.

(** A string that ends with a character other than white space. *)
Definition ends_solid (s : str) : Prop :=
  ∃ t c, s = t ++ [c] ∧ is_space c = false.

(** Number of white space characters at the head of a string. *)
Definition lead (s : str) : nat := (length s - length (lstrip s))%nat.

(** A line that the walk of [parse_title] takes into the title. *)
Definition accepted (ln : str) : Prop :=
  is_stop ln = false ∧ title_like ln = true.

(** The end of [parse_title] once the lines are chosen: join, trim,
    collapse, and [None] for an empty title. *)
Definition joined (parts : list str) : option str :=
  let title := strip (join (u " ") parts) in
  let title := sub SPACES1 (u " ") title in
  if truthy_str (Some title) then Some title else None.

(** ** Notions used for the request handler and the further properties *)

Import Api.

(** The words of the stop pattern, in the case in which it writes them. *)
Definition STOP_WORDS : list str :=
  u <$> [ "主催"; "招聘"; "製作"; "制作"; "共同制作"; "企画"; "協賛"; "協力";
          "お問い合わせ"; "お問合せ"; "問合せ"; "HP:"; "HP："; "http://";
          "https://"; "TEL:"; "TEL："; "発券店"; "払込票"; "指定席"; "自由席";
          "席"; "扉"; "列"; "番"; "消費税込"; "特定チケット"; "転売";
          "CNプレイガイド"; "セブン-イレブン" ]%string.

(** The text of an ISO date of this century, digit by digit. *)
Definition iso (a b c d e f : Z) : str :=
  [50; 48; digit_char a; digit_char b; 45; digit_char c; digit_char d; 45;
   digit_char e; digit_char f].

(** A text of one line. *)
Definition single_line (s : str) : Prop :=
  Forall (fun c => is_linebreak c = false) s.

(** A hint as [language_hints] gives them: not empty, trimmed, without
    comma. *)
Definition clean_hint (h : str) : Prop :=
  h ≠ [] ∧ trimmed h = true ∧ 0x2C ∉ h.

Definition IMAGE_BASE64 : str := u "image_base64".
Definition NO_IMAGE : str := u "No image provided".
Definition FAKE_EMPTY : str := u "FAKE_TEXT_FILE not found or empty".
Definition DEFAULT_HINTS : str := u "ja,zh-Hant,en".

(** What [data.get("image_base64")] gives in [read_image_bytes] for a
    body that is an object. *)
Definition posted_base64 (req : request) : option pyval :=
  match get_json req with
  | VDict d => assoc IMAGE_BASE64 d
  | _ => None
  end.

(** The event date of a text: the latest candidate, written out. *)
Definition event_date (text : str) : option str :=
  strftime_ymd <$> max_default (candidates text).

(** The three fields with nothing found. *)
Definition NO_FIELDS : gmap string (option str) :=
  <["title" := None]> (<["venue" := None]> {[ "event_date" := None ]}).

(** A decoder to run the handler with: it gives the code points of the
    text as the bytes. *)
Definition b64_as_it_is (s : str) : outcome bytes := Return s.

(** ** The order on dates and the choice of the latest *)

Section DateOrder.

Lemma date_gt_true (a b : date) :
  date_gt a b = true ↔
  year b < year a
  ∨ (year b = year a
     ∧ (month b < month a ∨ (month b = month a ∧ day b < day a))).
Proof.
  unfold date_gt.
  rewrite !orb_true_iff, !andb_true_iff, !orb_true_iff, !andb_true_iff.
  by rewrite !Z.ltb_lt, !Z.eqb_eq.
Qed.

Lemma date_gt_false (a b : date) :
  date_gt a b = false ↔
  ¬ (year b < year a
     ∨ (year b = year a
        ∧ (month b < month a ∨ (month b = month a ∧ day b < day a)))).
Proof. by rewrite <- date_gt_true, not_true_iff_false. Qed.

Lemma date_gt_irrefl (a : date) : date_gt a a = false.
Proof. rewrite date_gt_false. lia. Qed.

Lemma date_le_trans (a b c : date) :
  date_gt a b = false → date_gt b c = false → date_gt a c = false.
Proof. rewrite !date_gt_false. lia. Qed.

Lemma date_gt_le (a b : date) : date_gt a b = true → date_gt b a = false.
Proof. rewrite date_gt_true, date_gt_false. lia. Qed.

Lemma date_le_antisym (a b : date) :
  date_gt a b = false → date_gt b a = false → a = b.
Proof.
  rewrite !date_gt_false. destruct a as [ya ma da], b as [yb mb db]. simpl.
  intros Hab Hba. f_equal; lia.
Qed.

(** The loop of [max] keeps an element that nothing seen exceeds. *)
Lemma max_from_spec (xs : list date) (best : date) :
  (max_from best xs = best ∨ max_from best xs ∈ xs)
  ∧ date_gt best (max_from best xs) = false
  ∧ ∀ d, d ∈ xs → date_gt d (max_from best xs) = false.
Proof.
  revert best. induction xs as [|x xs IH]; intros best; simpl.
  - split; [by left|]. split; [apply date_gt_irrefl|].
    intros d Hd. by apply elem_of_nil in Hd.
  - destruct (date_gt x best) eqn:Hx.
    + destruct (IH x) as (Hin & Hge & Hall). split; [|split].
      * right. destruct Hin as [->|Hin]; [left|by right].
      * eapply date_le_trans; [by apply date_gt_le|done].
      * intros d [->|Hd]%elem_of_cons; [done|by apply Hall].
    + destruct (IH best) as (Hin & Hge & Hall). split; [|split].
      * destruct Hin as [->|Hin]; [by left|right; by right].
      * done.
      * intros d [->|Hd]%elem_of_cons; [|by apply Hall].
        by eapply date_le_trans.
Qed.

Lemma max_default_spec (xs : list date) :
  xs ≠ [] →
  ∃ D, max_default xs = Some D ∧ D ∈ xs
       ∧ ∀ d, d ∈ xs → date_gt d D = false.
Proof.
  destruct xs as [|x xs]; [done|]. intros _. simpl.
  destruct (max_from_spec xs x) as (Hin & Hge & Hall).
  eexists; split; [done|]. split.
  - destruct Hin as [->|Hin]; [left|by right].
  - intros d [->|Hd]%elem_of_cons; [done|by apply Hall].
Qed.

(** The greatest element of a list is unique. *)
Lemma greatest_unique (xs : list date) (a b : date) :
  a ∈ xs → b ∈ xs →
  (∀ d, d ∈ xs → date_gt d a = false) →
  (∀ d, d ∈ xs → date_gt d b = false) → a = b.
Proof. intros Ha Hb Hua Hub. apply date_le_antisym; auto. Qed.

(** So the choice does not depend on the order of the candidates. *)
Lemma max_default_perm (xs ys : list date) :
  xs ≡ₚ ys → max_default xs = max_default ys.
Proof.
  intros Hp. destruct (decide (xs = [])) as [->|Hne].
  - by apply Permutation_nil_l in Hp as ->.
  - assert (ys ≠ []) as Hne'.
    { intros ->. by apply Permutation_nil_r in Hp. }
    destruct (max_default_spec xs Hne) as (a & -> & Ha & Hua).
    destruct (max_default_spec ys Hne') as (b & -> & Hb & Hub).
    f_equal. apply (greatest_unique xs); auto.
    + by rewrite Hp.
    + intros d Hd. apply Hub. by rewrite <- Hp.
Qed.

End DateOrder.

(** ** Collecting dates *)

Section Collect.

Lemma match_year_ok (gd : gmap string (option str)) :
  ∃ y, match_year gd = Ok y.
Proof.
  unfold match_year, dict_get, getitem.
  destruct (gd !! "y") as [[w|]|]; simpl.
  - destruct w; simpl; [|by eexists].
    destruct (gd !! "y2") as [[w2|]|]; simpl; try by eexists.
    destruct w2; simpl; [by eexists|].
    unfold _to_int. destruct (int_of _); simpl; by eexists.
  - destruct (gd !! "y2") as [[w2|]|]; simpl; try by eexists.
    destruct w2; simpl; [by eexists|].
    unfold _to_int. destruct (int_of _); simpl; by eexists.
  - destruct (gd !! "y2") as [[w2|]|]; simpl; try by eexists.
    destruct w2; simpl; [by eexists|].
    unfold _to_int. destruct (int_of _); simpl; by eexists.
Qed.

Lemma truthy_valid (y M d : Z) :
  valid_date y M d = true →
  truthy_int (Some y) && truthy_int (Some M) && truthy_int (Some d) = true.
Proof.
  unfold valid_date, truthy_int. intros H.
  repeat (apply andb_prop in H as [H ?]).
  repeat (apply andb_true_intro; split); apply negb_true_iff, Z.eqb_neq; lia.
Qed.

(** One turn of the inner loop appends what the match contributes and
    never raises. *)
Lemma collect_match_validated (out : list (date * nat)) (m : match_obj) :
  collect_match out m = Ok (out ++ validated m).
Proof.
  unfold collect_match, validated, match_numbers.
  destruct (match_year_ok (groupdict m)) as [y ->]. simpl.
  destruct y as [y|]; simpl; [|by rewrite app_nil_r].
  destruct (_to_int (dict_get (groupdict m) "m") None) as [M|];
    [|by rewrite andb_false_r, app_nil_r].
  destruct (_to_int (dict_get (groupdict m) "d") None) as [d|];
    [|by rewrite andb_false_r, app_nil_r].
  unfold date_new. destruct (valid_date y M d) eqn:Hv.
  - change (negb (y =? 0)) with (truthy_int (Some y)).
    by rewrite truthy_valid.
  - rewrite app_nil_r. by destruct (_ && _).
Qed.

Lemma for_each_append {A B : Type} (body : list B → A → res (list B))
    (f : A → list B) (xs : list A) (out : list B) :
  (∀ out x, body out x = Ok (out ++ f x)) →
  for_each body xs out = Ok (out ++ flat_map f xs).
Proof.
  intros Hbody. revert out.
  induction xs as [|x xs IH]; intros out; simpl.
  - by rewrite app_nil_r.
  - rewrite Hbody. simpl. rewrite IH. by rewrite <- app_assoc.
Qed.

Lemma flat_map_flat_map {A B C : Type} (f : A → list B) (g : B → list C)
    (xs : list A) :
  flat_map g (flat_map f xs) = flat_map (fun x => flat_map g (f x)) xs.
Proof.
  induction xs as [|x xs IH]; simpl; [done|].
  by rewrite flat_map_app, IH.
Qed.

(** [_collect_dates] returns, without raising, the contributions of all
    matches. *)
Lemma collect_dates_validated (text : str) :
  _collect_dates text = Ok (flat_map validated (date_matches text)).
Proof.
  unfold _collect_dates, date_matches.
  rewrite (for_each_append _
             (fun rgx => flat_map validated (finditer rgx text))).
  - by rewrite flat_map_flat_map.
  - intros out rgx. apply for_each_append, collect_match_validated.
Qed.

Lemma parse_datetime_validated (text : str) :
  parse_datetime text
  = Ok {[ "event_date" :=
            strftime_ymd <$>
              max_default (flat_map validated (date_matches text)).*1 ]}.
Proof. unfold parse_datetime. by rewrite collect_dates_validated. Qed.

Lemma validated_valid (m : match_obj) (c : date * nat) :
  c ∈ validated m →
  valid_date (year c.1) (month c.1) (day c.1) = true ∧ c.2 = m_start m.
Proof.
  unfold validated. destruct (match_numbers m) as [[[y M] d]|].
  - destruct (valid_date y M d) eqn:Hv.
    + by intros ->%list_elem_of_singleton.
    + by intros ?%elem_of_nil.
  - by intros ?%elem_of_nil.
Qed.

End Collect.

Lemma candidates_validated (text : str) :
  candidates text = (flat_map validated (date_matches text)).*1.
Proof. unfold candidates. by rewrite collect_dates_validated. Qed.

Lemma validated_of_valid (m : match_obj) (y M d : Z) :
  match_numbers m = Some (y, M, d) → valid_date y M d = true →
  validated m = [(mkdate y M d, m_start m)].
Proof. unfold validated. by intros -> ->. Qed.

Lemma validated_of_invalid (m : match_obj) (y M d : Z) :
  match_numbers m = Some (y, M, d) → valid_date y M d = false →
  validated m = [].
Proof. unfold validated. by intros -> ->. Qed.

Lemma flat_map_nil {A B : Type} (f : A → list B) (xs : list A) :
  (∀ x, x ∈ xs → f x = []) → flat_map f xs = [].
Proof.
  induction xs as [|x xs IH]; intros H; simpl; [done|].
  rewrite H by left. apply IH. intros y Hy. apply H. by right.
Qed.

(** The validated dates of a text are the dates of the pairs that the
    matches contribute. *)
Lemma valid_match_date_spec (text : str) (D : date) :
  valid_match_date text D ↔ D ∈ (flat_map validated (date_matches text)).*1.
Proof.
  split.
  - intros (m & y & M & d & Hm & Hnum & Hvalid & ->).
    apply list_elem_of_fmap. exists (mkdate y M d, m_start m). split; [done|].
    apply list_elem_of_In, in_flat_map. exists m. split.
    + by apply list_elem_of_In.
    + rewrite (validated_of_valid m y M d) by done. by left.
  - intros ([D' i] & -> & Hin)%list_elem_of_fmap.
    apply list_elem_of_In, in_flat_map in Hin as (m & Hm%list_elem_of_In & Hc).
    revert Hc. unfold validated.
    destruct (match_numbers m) as [[[y M] d]|] eqn:Hnum; [|done].
    destruct (valid_date y M d) eqn:Hvalid; [|done].
    intros [[= <- _]|[]]. by exists m, y, M, d.
Qed.

(** C1. When at least one match of a date pattern is a date of the calendar,
    [parse_datetime] returns the latest of the validated dates of the text:
    the date [D] returned is the date of a match whose numbers are a date of
    the calendar, and no match gives a later one. The order of the matches
    and the pattern of each play no part: any list with the same dates has
    [D] as its latest. When the validated dates are two dates [D1 < D2],
    the result is [D2]. *)
Theorem parse_datetime_latest (text : str) (m : match_obj) (y M d : Z) :
  m ∈ date_matches text →
  match_numbers m = Some (y, M, d) →
  valid_date y M d = true →
  ∃ D : date,
    parse_datetime text = Ok {[ "event_date" := Some (strftime_ymd D) ]}
    ∧ valid_match_date text D
    ∧ (∀ d', valid_match_date text d' → date_gt d' D = false)
    ∧ (∀ ds, (∀ d', d' ∈ ds ↔ valid_match_date text d') →
         max_default ds = Some D)
    ∧ (∀ D1 D2, date_gt D2 D1 = true →
         (∀ d', valid_match_date text d' ↔ d' = D1 ∨ d' = D2) → D = D2).
Proof.
  intros Hm Hnum Hvalid.
  assert (valid_match_date text (mkdate y M d)) as Hone
    by by exists m, y, M, d.
  set (xs := (flat_map validated (date_matches text)).*1).
  assert (xs ≠ []) as Hne.
  { apply valid_match_date_spec in Hone. fold xs in Hone.
    intros E. rewrite E in Hone. by apply elem_of_nil in Hone. }
  rewrite parse_datetime_validated. fold xs.
  destruct (max_default_spec xs Hne) as (D & HD & Hin & Hub).
  assert (∀ d', valid_match_date text d' → date_gt d' D = false) as Hub'.
  { intros d' Hd'. by apply Hub, valid_match_date_spec. }
  exists D. rewrite HD. split; [done|].
  split; [by apply valid_match_date_spec|]. split; [done|]. split.
  - intros ds Hds.
    assert (ds ≠ []) as Hne'.
    { intros ->. by apply Hds, elem_of_nil in Hone. }
    destruct (max_default_spec ds Hne') as (D' & -> & Hin' & Hub'').
    f_equal. apply date_le_antisym.
    + by apply Hub', Hds.
    + by apply Hub'', Hds, valid_match_date_spec.
  - intros D1 D2 Hlt Hset.
    apply valid_match_date_spec, Hset in Hin as [-> | ->]; [|done].
    rewrite Hub' in Hlt; [done|]. apply Hset. by right.
Qed.

Lemma parse_datetime_latest_witness :
  let text := u "2025/7/1 2025年8月10日" in
  ∃ D : date,
    parse_datetime text = Ok {[ "event_date" := Some (strftime_ymd D) ]}
    ∧ valid_match_date text D
    ∧ date_gt (mkdate 2025 7 1) D = false.
Proof.
  intros text.
  destruct (parse_datetime_latest text (first_match DATE_YMD text) 2025 7 1)
    as (D & HD & Hin & Hub & _).
  - vm_compute. apply list_elem_of_here.
  - vm_compute. reflexivity.
  - vm_compute. reflexivity.
  - exists D. split; [exact HD|]. split; [exact Hin|]. apply Hub.
    exists (first_match DATE_YMD text), 2025, 7, 1.
    split; [vm_compute; apply list_elem_of_here|].
    split; [vm_compute; reflexivity|]. split; reflexivity.
Defined.

(** Two dates written in a text can be more than two validated dates: in
    2025年8月10日 2030年1月1日 the second pattern also reads 8月10日 2030年,
    and the event date is neither of the dates written. *)
Lemma two_written_dates_give_a_third :
  let text := u "2025年8月10日 2030年1月1日" in
  _collect_dates text
  = Ok [ (mkdate 2025 8 10, 0%nat); (mkdate 2030 1 1, 11%nat);
         (mkdate 2030 8 10, 5%nat); (mkdate 2025 8 10, 2%nat);
         (mkdate 2030 1 1, 13%nat) ]
  ∧ parse_datetime text = Ok {[ "event_date" := Some (u "2030-08-10") ]}
  ∧ u "2030-08-10" ≠ u "2030-01-01".
Proof. repeat split; [vm_compute; reflexivity..|by vm_compute]. Qed.

(** C6. A match whose numbers are not a date of the calendar is dropped:
    the loop body returns the list unchanged and raises nothing, so
    [_collect_dates] and [parse_datetime] give what the remaining matches
    give, and every date kept is a date of the calendar. *)
Theorem invalid_date_discarded (text : str) (ms1 ms2 : list match_obj)
    (m : match_obj) (y M d : Z) :
  date_matches text = ms1 ++ m :: ms2 →
  match_numbers m = Some (y, M, d) →
  valid_date y M d = false →
  (∀ out, collect_match out m = Ok out)
  ∧ _collect_dates text = Ok (flat_map validated (ms1 ++ ms2))
  ∧ parse_datetime text
    = Ok {[ "event_date" :=
              strftime_ymd <$> max_default (flat_map validated (ms1 ++ ms2)).*1 ]}
  ∧ (∀ c, c ∈ flat_map validated (ms1 ++ ms2) →
       valid_date (year c.1) (month c.1) (day c.1) = true).
Proof.
  intros Hms Hnum Hinv.
  pose proof (validated_of_invalid m y M d Hnum Hinv) as Hnil.
  assert (flat_map validated (date_matches text)
          = flat_map validated (ms1 ++ ms2)) as Heq.
  { rewrite Hms, !flat_map_app. simpl. by rewrite Hnil. }
  split; [|split; [|split]].
  - intros out. by rewrite collect_match_validated, Hnil, app_nil_r.
  - by rewrite collect_dates_validated, Heq.
  - by rewrite parse_datetime_validated, Heq.
  - intros c [m' [_ Hc%list_elem_of_In]]%list_elem_of_In%in_flat_map.
    by apply validated_valid in Hc as [? _].
Qed.

Lemma invalid_date_discarded_witness :
  let text := u "2025年2月30日 2025/7/1" in
  parse_datetime text = Ok {[ "event_date" := Some (u "2025-07-01") ]}.
Proof.
  intros text.
  destruct (invalid_date_discarded text [] (tail (date_matches text))
              (first_match DATE_YMD text) 2025 2 30)
    as (_ & _ & H & _).
  - vm_compute. reflexivity.
  - vm_compute. reflexivity.
  - vm_compute. reflexivity.
  - rewrite H. vm_compute. reflexivity.
Defined.

(** Month 13, day 32 and the 30th of February give no date. *)
Example malformed_dates_give_nothing :
  _collect_dates (u "2025/13/1 2025年1月32日 2月30日(日)2025年") = Ok [].
Proof. vm_compute. reflexivity. Qed.

(** C8. When no match of a date pattern is a date of the calendar, as in the
    empty text, [_collect_dates] returns the empty list and [parse_datetime]
    returns [None] for the event date; nothing is raised. *)
Theorem parse_datetime_absent (text : str) :
  (∀ m y M d, m ∈ date_matches text → match_numbers m = Some (y, M, d) →
              valid_date y M d = false) →
  _collect_dates text = Ok []
  ∧ parse_datetime text = Ok {[ "event_date" := None ]}.
Proof.
  intros Hnone.
  assert (flat_map validated (date_matches text) = []) as Hnil.
  { apply flat_map_nil. intros m Hm. unfold validated.
    destruct (match_numbers m) as [[[y M] d]|] eqn:Hnum; [|done].
    by rewrite (Hnone m y M d Hm Hnum). }
  split.
  - by rewrite collect_dates_validated, Hnil.
  - by rewrite parse_datetime_validated, Hnil.
Qed.

Lemma parse_datetime_absent_witness :
  _collect_dates (u "") = Ok []
  ∧ parse_datetime (u "") = Ok {[ "event_date" := None ]}.
Proof.
  apply (parse_datetime_absent (u "")).
  intros m y M d Hm. vm_compute in Hm. by apply elem_of_nil in Hm.
Defined.

(** ** What a match of a pattern says about the text *)

Section Matcher.

Lemma rep_sound {R : Type} (p : char → bool) (s : str) :
  ∀ (lo : nat) (hi : option nat) (pos : nat) (k : str → nat → option R) (x : R),
  rep p lo hi s pos k = Some x →
  ∃ w s', s = w ++ s' ∧ Forall (fun c => p c = true) w
          ∧ (lo ≤ length w)%nat
          ∧ (∀ n, hi = Some n → (length w ≤ n)%nat)
          ∧ k s' (pos + length w)%nat = Some x.
Proof.
  assert (∀ (s0 : str) (lo : nat) (hi : option nat) (pos : nat)
            (k : str → nat → option R) x,
            rep_stop lo s0 pos k = Some x →
            ∃ w s', s0 = w ++ s' ∧ Forall (fun c => p c = true) w
                    ∧ (lo ≤ length w)%nat
                    ∧ (∀ n, hi = Some n → (length w ≤ n)%nat)
                    ∧ k s' (pos + length w)%nat = Some x) as Hstop.
  { intros s0 [|lo] hi pos k x H; [|done].
    exists [], s0. simpl. rewrite Nat.add_0_r.
    repeat split; auto; intros; lia. }
  induction s as [|c s IH]; intros lo hi pos k x; simpl.
  - apply Hstop.
  - destruct (p c && below hi) eqn:Hc; [|apply Hstop].
    destruct (rep p (pred lo) (dec hi) s (S pos) k) as [y|] eqn:Hrec;
      [|apply Hstop].
    intros [= ->]. apply andb_prop in Hc as [Hp Hb].
    destruct (IH _ _ _ _ _ Hrec) as (w & s' & -> & Hw & Hlo & Hhi & Hk).
    exists (c :: w), s'. simpl.
    replace (pos + S (length w))%nat with (S pos + length w)%nat by lia.
    repeat split; auto; [lia|].
    intros n ->. destruct n as [|n]; [done|].
    specialize (Hhi n eq_refl). lia.
Qed.

Lemma run_sound {R : Type} (ic : bool) (r : regex) :
  ∀ (s : str) (pos : nat) (g : caps) (k : str → nat → caps → option R) (x : R),
  run ic r s pos g k = Some x →
  ∃ s' pos' g', consumes ic r s pos s' pos' g g' ∧ k s' pos' g' = Some x.
Proof.
  induction r as [|c|p|r1 IH1 r2 IH2|r1 IH1 r2 IH2|lo hi p|r1 IH1|name r1 IH1];
    intros s pos g k x; simpl.
  - intros H. by exists s, pos, g.
  - destruct s as [|ch s]; [done|].
    destruct (lit_match ic c ch) eqn:Hc; [|done].
    intros H. exists s, (S pos), g. split; [by exists ch|done].
  - destruct s as [|ch s]; [done|].
    destruct (p ch) eqn:Hc; [|done].
    intros H. exists s, (S pos), g. split; [by exists ch|done].
  - intros H. apply IH1 in H as (s1 & pos1 & g1 & H1 & H).
    apply IH2 in H as (s' & pos' & g' & H2 & H).
    exists s', pos', g'. split; [by exists s1, pos1, g1|done].
  - destruct (run ic r1 s pos g k) as [y|] eqn:H1.
    + intros [= ->]. apply IH1 in H1 as (s' & pos' & g' & H1 & H).
      exists s', pos', g'. split; [by left|done].
    + intros H. apply IH2 in H as (s' & pos' & g' & H2 & H).
      exists s', pos', g'. split; [by right|done].
  - intros H. apply rep_sound in H as (w & s' & -> & Hw & Hlo & Hhi & H).
    exists s', (pos + length w)%nat, g. split; [by exists w|done].
  - destruct (run ic r1 s pos g k) as [y|] eqn:H1.
    + intros [= ->]. apply IH1 in H1 as (s' & pos' & g' & H1 & H).
      exists s', pos', g'. split; [by left|done].
    + intros H. exists s, pos, g. split; [by right|done].
  - intros H. apply IH1 in H as (s' & pos' & g' & H1 & H).
    eexists s', pos', _. split; [by exists g'|done].
Qed.

Lemma match_at_sound (p : pattern) (s : str) (len : nat) (g : caps) :
  match_at p s = Some (len, g) →
  ∃ rest, consumes (ignorecase p) (ast p) s 0 rest len [] g.
Proof.
  unfold match_at. intros H.
  apply run_sound in H as (s' & pos' & g' & Hc & [= -> ->]). by exists s'.
Qed.

(** Every match reported by the scan is a match at some place of the
    text. *)
Lemma scan_sound (p : pattern) (m : match_obj) (s : str) :
  ∀ pos skip, m ∈ scan p s pos skip →
  ∃ s1 len g, match_at p s1 = Some (len, g)
              ∧ s1 `suffix_of` s
              ∧ m_end m = (m_start m + len)%nat
              ∧ groupdict m = groupdict_of (ast p) s1 g.
Proof.
  induction s as [|c s IH]; intros pos skip; simpl.
  - by intros ?%elem_of_nil.
  - assert (∀ pos' skip', m ∈ scan p s pos' skip' →
              ∃ s1 len g, match_at p s1 = Some (len, g)
                          ∧ s1 `suffix_of` c :: s
                          ∧ m_end m = (m_start m + len)%nat
                          ∧ groupdict m = groupdict_of (ast p) s1 g) as IH'.
    { intros pos' skip' Hin.
      destruct (IH _ _ Hin) as (s1 & len & g & H1 & H2 & H3 & H4).
      exists s1, len, g. split; [done|]. split; [by apply suffix_cons_r|done]. }
    destruct skip as [|skip]; [|apply IH'].
    destruct (match_at p (c :: s)) as [[len g]|] eqn:Hm; [|apply IH'].
    intros [->|Hin]%elem_of_cons; [|by eapply IH'].
    by exists (c :: s), len, g.
Qed.

Lemma consumes_min_len (ic : bool) (r : regex) :
  ∀ s pos s' pos' g g',
  consumes ic r s pos s' pos' g g' → (pos + min_len r ≤ pos')%nat.
Proof.
  induction r as [|c|p|r1 IH1 r2 IH2|r1 IH1 r2 IH2|lo hi p|r1 IH1|name r1 IH1];
    intros s pos s' pos' g g'; simpl.
  - intros (_ & -> & _). lia.
  - intros (ch & _ & -> & _). lia.
  - intros (ch & _ & -> & _). lia.
  - intros (s1 & pos1 & g1 & H1 & H2).
    apply IH1 in H1. apply IH2 in H2. lia.
  - intros [H|H]; [apply IH1 in H|apply IH2 in H]; lia.
  - intros (w & _ & -> & _ & Hlo & _). lia.
  - intros [H|(_ & -> & _)]; [apply IH1 in H|]; lia.
  - intros (g1 & H & _). by apply IH1 in H.
Qed.

(** The patterns of the program read at least one character, so that no
    match is empty. *)
Lemma matches_not_empty (p : pattern) (s : str) (len : nat) (g : caps) :
  p ∈ DATE_REGEXES ++ [TITLE_STOP_PAT; SPACES1; NON_LETTER] →
  match_at p s = Some (len, g) → (1 ≤ len)%nat.
Proof.
  intros Hp Hm. apply match_at_sound in Hm as [rest Hm].
  apply consumes_min_len in Hm.
  assert (1 ≤ min_len (ast p))%nat; [|lia].
  clear Hm. unfold DATE_REGEXES in Hp. simpl in Hp.
  repeat (apply elem_of_cons in Hp as [->|Hp]);
    [vm_compute; lia..|by apply elem_of_nil in Hp].
Qed.

Lemma decimal_of_digit (c : char) :
  is_digit c = true → ∃ v, decimal c = Some v.
Proof. unfold is_digit. destruct (decimal c); [by eexists|done]. Qed.

End Matcher.

(** ** Reading numbers *)

Section IntLiteral.

Lemma decimal_range (c : char) (v : Z) : decimal c = Some v → 0 ≤ v ≤ 9.
Proof.
  unfold decimal. generalize Nd_ranges. intros rs.
  induction rs as [|[z n] rs IH]; simpl; [done|].
  destruct (_ && _); [|done].
  intros [= <-]. assert (0 ≤ (c - z) mod 10 < 10) by (apply Z.mod_pos_bound; lia).
  lia.
Qed.

Lemma decimal_in_above (rs : list (Z * Z)) (c : char) :
  Forall (fun r => c < r.1) rs → decimal_in rs c = None.
Proof.
  induction 1 as [|[z n] rs Hz _ IH]; [done|]. cbn [decimal_in fst] in *.
  rewrite IH. destruct (Z.leb_spec z c); [lia|done].
Qed.

(** The decimal digits of ASCII are 0 to 9. *)
Lemma decimal_ascii (c : char) (v : Z) :
  c < 128 → decimal c = Some v → 0x30 ≤ c ≤ 0x39 ∧ v = c - 0x30.
Proof.
  intros Hc.
  change (decimal c)
    with (if (0x30 <=? c) && (c <? 0x30 + 10) then Some ((c - 0x30) mod 10)
          else decimal_in (tail Nd_ranges) c).
  destruct (_ && _) eqn:E.
  - intros [= <-]. rewrite Z.mod_small by lia. lia.
  - rewrite decimal_in_above; [done|]. unfold Nd_ranges. cbn [tail].
    repeat (apply Forall_cons_2; [simpl; lia|]). apply Forall_nil_2.
Qed.

(** No white space is a decimal digit. *)
Lemma space_not_digit (c : char) : is_space c = true → decimal c = None.
Proof.
  intros H.
  assert (c ∈ [0x09; 0x0A; 0x0B; 0x0C; 0x0D; 0x1C; 0x1D; 0x1E; 0x1F; 0x20;
               0x85; 0xA0; 0x1680; 0x2000; 0x2001; 0x2002; 0x2003; 0x2004;
               0x2005; 0x2006; 0x2007; 0x2008; 0x2009; 0x200A; 0x2028;
               0x2029; 0x202F; 0x205F; 0x3000]) as Hc.
  { unfold is_space in H. rewrite !elem_of_cons. lia. }
  repeat (apply elem_of_cons in Hc as [->|Hc]; [vm_compute; reflexivity|]).
  by apply elem_of_nil in Hc.
Qed.

(** The digits of a string of decimal digits are read one by one, with the
    value of [decimal_value]. *)
Lemma scan_digits_to_ascii (s : str) :
  Forall (fun c => is_digit c = true) s →
  ∀ acc n, ∃ v,
    decimal_value acc s = Some v
    ∧ scan_digits (to_ascii s) false acc n = Some (v, n + Z.of_nat (length s), []).
Proof.
  induction 1 as [|c s Hc _ IH]; intros acc n.
  - exists acc. split; [done|]. simpl. do 2 f_equal. f_equal. lia.
  - apply decimal_of_digit in Hc as [d Hd]. pose proof (decimal_range c d Hd) as Hr.
    cbn [decimal_value to_ascii]. rewrite Hd.
    destruct (Z.ltb_spec c 127) as [Hlt|Hge].
    + destruct (decimal_ascii c d) as [Hasc ->]; [lia|done|].
      destruct (IH (10 * acc + (c - 48)) (n + 1)) as (v & Hv & Hs).
      exists v. split; [done|]. cbn [scan_digits].
      assert (((48 <=? c) && (c <=? 57)) = true) as -> by lia.
      rewrite Hs. do 2 f_equal. f_equal. rewrite length_cons. lia.
    + destruct (is_space c) eqn:Hsp.
      { apply space_not_digit in Hsp. congruence. }
      destruct (IH (10 * acc + d) (n + 1)) as (v & Hv & Hs).
      exists v. split; [done|]. cbn [scan_digits].
      assert (((48 <=? 48 + d) && (48 + d <=? 57)) = true) as -> by lia.
      replace (48 + d - 48) with d by lia.
      rewrite Hs. do 2 f_equal. f_equal. rewrite length_cons. lia.
Qed.

Lemma to_ascii_all_ascii (s : str) :
  Forall (fun c => is_digit c = true) s →
  forallb (fun c => c <? 128) s = true → to_ascii s = s.
Proof.
  induction 1 as [|c s Hc _ IH]; [done|]. simpl.
  intros [Hlt Hs]%andb_prop. apply decimal_of_digit in Hc as [d Hd].
  destruct (decimal_ascii c d) as [Hasc _]; [lia|done|].
  assert ((c <? 127) = true) as -> by lia. by rewrite IH.
Qed.

Lemma to_ascii_head (c : char) (s : str) :
  is_digit c = true →
  ∃ h t, to_ascii (c :: s) = h :: t ∧ 0x30 ≤ h ≤ 0x39.
Proof.
  intros [d Hd]%decimal_of_digit. pose proof (decimal_range c d Hd) as Hr.
  cbn [to_ascii]. destruct (Z.ltb_spec c 127) as [Hlt|Hge].
  - destruct (decimal_ascii c d) as [Hasc _]; [lia|done|]. by eexists _, _.
  - destruct (is_space c) eqn:Hsp.
    { apply space_not_digit in Hsp. congruence. }
    rewrite Hd. eexists _, _. split; [done|]. lia.
Qed.

(** [int] on a string of decimal digits, of ASCII or not: its value, unless
    the digits are more than the limit. *)
Lemma int_literal_digits (s : str) :
  s ≠ [] → Forall (fun c => is_digit c = true) s →
  int_literal s
  = if INT_MAX_STR_DIGITS <? Z.of_nat (length s) then None
    else decimal_value 0 s.
Proof.
  intros Hne Hall. unfold int_literal.
  assert ((if forallb (fun c => c <? 128) s then s else to_ascii s)
          = to_ascii s) as ->.
  { destruct (forallb (fun c => c <? 128) s) eqn:E; [|done].
    by rewrite to_ascii_all_ascii. }
  destruct (scan_digits_to_ascii s Hall 0 0) as (v & Hv & Hs).
  destruct s as [|c s]; [done|].
  apply Forall_cons in Hall as [Hc _].
  destruct (to_ascii_head c s Hc) as (h & t & Hh & Hr).
  rewrite Hh in Hs |- *. cbn [skip_spaces].
  assert (is_ascii_space h = false) as -> by (unfold is_ascii_space; lia).
  cbn [head_is].
  assert ((h =? 43) = false) as -> by lia.
  assert ((h =? 45) = false) as -> by lia.
  cbn [orb head_is].
  assert ((h =? 95) = false) as -> by lia.
  rewrite Hs, Hv. cbn [skip_spaces].
  rewrite Z.add_0_l.
  destruct (Z.eqb_spec (Z.of_nat (length (c :: s))) 0) as [E|_]; [|done].
  rewrite length_cons in E. lia.
Qed.

Lemma to_int_digits (s : str) (v : Z) (dflt : option Z) :
  decimal_value 0 s = Some v → s ≠ [] → Z.of_nat (length s) ≤ INT_MAX_STR_DIGITS →
  _to_int (Some s) dflt = Some v.
Proof.
  intros Hv Hne Hlen. unfold _to_int, int_of.
  rewrite int_literal_digits; [|done|].
  - destruct (Z.ltb_spec INT_MAX_STR_DIGITS (Z.of_nat (length s))); [lia|].
    by rewrite Hv.
  - clear Hne Hlen. revert Hv. generalize 0. induction s as [|c s IH]; [done|].
    intros acc. simpl. destruct (decimal c) as [d|] eqn:Hd; [|done].
    intros Hv%IH. constructor; [|done]. unfold is_digit. by rewrite Hd.
Qed.

End IntLiteral.

(** ** The two-digit year *)

Section TwoDigitYear.

Ltac break :=
  repeat match goal with
  | H : ∃ _, _ |- _ => destruct H
  | H : _ ∧ _ |- _ => destruct H
  end.

Lemma ast_DATE_YMD :
  ast DATE_YMD =
  Cat (Grp "y" (Cat (Cat (Lit 0x32) (Cat (Lit 0x30) Eps))
                  (Cat (Rep 2 (Some 2%nat) is_digit) Eps)))
   (Cat (Rep 0 None is_space)
    (Cat (one_of "./年-")
     (Cat (Rep 0 None is_space)
      (Cat (Grp "m" (Rep 1 (Some 2%nat) is_digit))
       (Cat (Rep 0 None is_space)
        (Cat (one_of "./月-")
         (Cat (Rep 0 None is_space)
          (Cat (Grp "d" (Rep 1 (Some 2%nat) is_digit)) Eps)))))))).
Proof. reflexivity. Qed.

Lemma ast_DATE_MDY :
  ast DATE_MDY =
  Cat (Grp "m" (Rep 1 (Some 2%nat) is_digit))
   (Cat (Rep 0 None is_space)
    (Cat (Cat (Lit 0x6708) Eps)
     (Cat (Rep 0 None is_space)
      (Cat (Grp "d" (Rep 1 (Some 2%nat) is_digit))
       (Cat (Rep 0 None is_space)
        (Cat (Cat (Lit 0x65E5) Eps)
         (Cat (Opt (Cat (Cat (Lit 0x28) Eps)
                     (Cat (Rep 1 None (not_in ")"))
                        (Cat (Cat (Lit 0x29) Eps) Eps))))
          (Cat (Rep 0 None is_space)
           (Cat (Grp "y" (Cat (Cat (Lit 0x32) (Cat (Lit 0x30) Eps))
                           (Cat (Rep 2 (Some 2%nat) is_digit) Eps)))
            (Cat (Rep 0 None is_space)
             (Cat (Opt (Cat (Lit 0x5E74) Eps)) Eps))))))))))).
Proof. reflexivity. Qed.

Lemma ast_DATE_YY :
  ast DATE_YY =
  Cat (Grp "y2" (Rep 2 (Some 2%nat) is_digit))
   (Cat (Rep 0 None is_space)
    (Cat (Cat (Lit 0x5E74) Eps)
     (Cat (Rep 0 None is_space)
      (Cat (Grp "m" (Rep 1 (Some 2%nat) is_digit))
       (Cat (Rep 0 None is_space)
        (Cat (Cat (Lit 0x6708) Eps)
         (Cat (Rep 0 None is_space)
          (Cat (Grp "d" (Rep 1 (Some 2%nat) is_digit)) Eps)))))))).
Proof. reflexivity. Qed.

(** The groups of a match of [DATE_YY]: [y2] holds two digits. *)
Lemma date_yy_groups (text : str) (m : match_obj) :
  m ∈ finditer DATE_YY text →
  ∃ (a b : char) (va vb : Z) (wm wd : str),
    decimal a = Some va ∧ decimal b = Some vb
    ∧ groupdict m
      = <["y2" := Some [a; b]]> (<["m" := Some wm]> (<["d" := Some wd]> ∅)).
Proof.
  intros Hm. apply scan_sound in Hm as (s1 & len & g & Hm & _ & _ & Hgd).
  apply match_at_sound in Hm as [rest Hm]. rewrite ast_DATE_YY in Hm, Hgd.
  cbn [consumes] in Hm.
  destruct Hm
    as (s2 & p2 & g2 & (g1 & (wy & -> & -> & Hwy & Hlo & Hhi & ->) & ->) & Hm).
  specialize (Hhi 2%nat eq_refl).
  destruct wy as [|a [|b [|? ?]]]; simpl in Hlo, Hhi; try lia.
  apply Forall_cons in Hwy as [Ha Hwy]. apply Forall_cons in Hwy as [Hb _].
  apply decimal_of_digit in Ha as [va Ha], Hb as [vb Hb].
  break. subst.
  exists a, b, va, vb. do 2 eexists. split; [done|]. split; [done|].
  rewrite Hgd. reflexivity.
Qed.

Lemma to_int_two_digits (a b : char) (va vb : Z) (dflt : option Z) :
  decimal a = Some va → decimal b = Some vb →
  _to_int (Some [a; b]) dflt = Some (10 * va + vb).
Proof.
  intros Ha Hb. apply to_int_digits; [|done|simpl; unfold INT_MAX_STR_DIGITS; lia].
  cbn [decimal_value]. rewrite Ha, Hb. f_equal; lia.
Qed.

Lemma match_year_yy (gd : gmap string (option str)) (w : str) (n : Z) :
  gd !! "y" = None → gd !! "y2" = Some (Some w) → w ≠ [] →
  _to_int (Some w) (Some 0) = Some n →
  match_year gd = Ok (Some (2000 + n)).
Proof.
  intros Hy Hy2 Hw Hn. unfold match_year, dict_get, getitem.
  rewrite Hy, Hy2. simpl. destruct w; [done|]. simpl. by rewrite Hn.
Qed.

(** *** The date 25年8月10日 between texts without digits *)

(** No date pattern matches at a character that is not a digit. *)
Lemma match_at_nondigit (p : pattern) (c : char) (s : str) :
  p ∈ DATE_REGEXES → is_digit c = false → match_at p (c :: s) = None.
Proof.
  intros Hp Hc. unfold DATE_REGEXES in Hp.
  repeat (apply elem_of_cons in Hp as [->|Hp]); [| | |by apply elem_of_nil in Hp].
  - unfold match_at. rewrite ast_DATE_YMD. cbn [run].
    destruct (lit_match _ 50 c) eqn:Hl; [|done].
    apply Z.eqb_eq in Hl as ->. by vm_compute in Hc.
  - unfold match_at. rewrite ast_DATE_MDY. cbn [run rep]. by rewrite Hc.
  - unfold match_at. rewrite ast_DATE_YY. cbn [run rep]. by rewrite Hc.
Qed.

Lemma scan_skip (p : pattern) (w s : str) (pos : nat) :
  scan p (w ++ s) pos (length w) = scan p s (pos + length w) 0.
Proof.
  revert pos. induction w as [|c w IH]; intros pos; simpl.
  - by rewrite Nat.add_0_r.
  - rewrite IH. f_equal. lia.
Qed.

Lemma scan_no_match (p : pattern) (c : char) (s : str) (pos : nat) :
  match_at p (c :: s) = None → scan p (c :: s) pos 0 = scan p s (S pos) 0.
Proof. intros H. simpl. by rewrite H. Qed.

Lemma scan_match (p : pattern) (c : char) (s : str) (pos len : nat) (g : caps) :
  match_at p (c :: s) = Some (len, g) →
  scan p (c :: s) pos 0
  = mkmatch pos (pos + len) (groupdict_of (ast p) (c :: s) g)
      :: scan p s (S pos) (pred len).
Proof. intros H. simpl. by rewrite H. Qed.

Lemma scan_nondigit (p : pattern) (pre s : str) (pos : nat) :
  p ∈ DATE_REGEXES → no_digit pre →
  scan p (pre ++ s) pos 0 = scan p s (pos + length pre) 0.
Proof.
  intros Hp Hpre. revert pos.
  induction Hpre as [|c pre Hc Hpre IH]; intros pos.
  - simpl. by rewrite Nat.add_0_r.
  - rewrite <- app_comm_cons, scan_no_match by by apply match_at_nondigit.
    rewrite IH. simpl. f_equal. lia.
Qed.

Lemma scan_nondigit_nil (p : pattern) (s : str) (pos : nat) :
  p ∈ DATE_REGEXES → no_digit s → scan p s pos 0 = [].
Proof.
  intros Hp Hs. rewrite <- (app_nil_r s). by rewrite scan_nondigit.
Qed.

Lemma class_prefix_stop (P : char → bool) (c : char) (t w s' : str) :
  c :: t = w ++ s' → Forall (fun c => P c = true) w → P c = false →
  w = [] ∧ c :: t = s'.
Proof.
  intros H Hw Hc. destruct w as [|a w]; [done|].
  simpl in H. injection H as <- _. apply Forall_cons in Hw as [Ha _]. congruence.
Qed.

Lemma cons_eq_inv (c c' : char) (t r : str) :
  c :: t = c' :: r → c = c' ∧ t = r.
Proof. by intros [= -> ->]. Qed.

Lemma lit_match_exact (c ch : char) : lit_match false c ch = true → ch = c.
Proof. apply Z.eqb_eq. Qed.

(** Reading a text whose head is known against the pieces of a pattern,
    from left to right. *)
Ltac peel :=
  match goal with
  | H : (_ <= length [])%nat |- _ => first [ by (simpl in H; lia) | clear H ]
  | H : ?c :: ?t = ?w ++ ?r, Hw : Forall _ ?w |- _ =>
    first
      [ let H' := fresh in
        destruct (class_prefix_stop _ c t w r H Hw ltac:(vm_compute; reflexivity))
          as [-> H']; clear H Hw
      | destruct w as [|? w];
        [ simpl in H; clear Hw
        | simpl in H; injection H as <- H; apply Forall_cons in Hw as [_ Hw] ] ]
  | H : ?c :: ?t = ?c' :: ?r |- _ =>
    let Hc := fresh in
    apply cons_eq_inv in H as [Hc H]; first [ discriminate Hc | clear Hc ]
  | H : ?a = ?b |- _ => is_var a; is_var b; subst a
  end.

Ltac lits :=
  repeat match goal with
  | H : lit_match _ _ ?ch = true |- _ => apply lit_match_exact in H; subst ch
  end.

Ltac digit_in_digit_free H :=
  unfold no_digit in H;
  repeat (rewrite Forall_app in H || rewrite Forall_cons in H); break;
  match goal with
  | Hd : is_digit _ = false |- _ => by vm_compute in Hd
  end.

(** At 8月10日 the month-day-year pattern needs a year 20.. further on. *)
Lemma mdy_needs_year_after (post : str) :
  no_digit post →
  match_at DATE_MDY (56 :: 26376 :: 49 :: 48 :: 26085 :: post) = None.
Proof.
  intros Hpost.
  destruct (match_at DATE_MDY _) as [[len g]|] eqn:Hm; [exfalso|done].
  apply match_at_sound in Hm as [rest Hm]. rewrite ast_DATE_MDY in Hm.
  cbn [consumes] in Hm. break. lits. subst.
  repeat peel.
  repeat match goal with H : _ ∨ _ |- _ => destruct H end;
    break; lits; subst; digit_in_digit_free Hpost.
Qed.

Lemma finditer_ymd_none (pre post : str) :
  no_digit pre → no_digit post →
  finditer DATE_YMD (pre ++ u "25年8月10日" ++ post) = [].
Proof.
  intros Hpre Hpost. unfold finditer.
  rewrite scan_nondigit by (done || apply list_elem_of_here).
  change (u "25年8月10日") with [50; 53; 24180; 56; 26376; 49; 48; 26085].
  cbn [app].
  do 8 (rewrite scan_no_match by (vm_compute; reflexivity)).
  apply scan_nondigit_nil; [apply list_elem_of_here|done].
Qed.

Lemma finditer_mdy_none (pre post : str) :
  no_digit pre → no_digit post →
  finditer DATE_MDY (pre ++ u "25年8月10日" ++ post) = [].
Proof.
  intros Hpre Hpost. unfold finditer.
  rewrite scan_nondigit by (done || (right; left)).
  change (u "25年8月10日") with [50; 53; 24180; 56; 26376; 49; 48; 26085].
  cbn [app].
  do 3 (rewrite scan_no_match by (vm_compute; reflexivity)).
  rewrite scan_no_match by by apply mdy_needs_year_after.
  do 4 (rewrite scan_no_match by (vm_compute; reflexivity)).
  apply scan_nondigit_nil; [right; left|done].
Qed.

Lemma finditer_yy_one (pre post : str) :
  no_digit pre → no_digit post →
  ∃ m, finditer DATE_YY (pre ++ u "25年8月10日" ++ post) = [m]
       ∧ m_start m = length pre
       ∧ match_numbers m = Some (2025, 8, 10).
Proof.
  intros Hpre Hpost. unfold finditer.
  rewrite scan_nondigit by (done || (right; right; left)).
  change (u "25年8月10日") with [50; 53; 24180; 56; 26376; 49; 48; 26085].
  cbn [app].
  erewrite scan_match by (vm_compute; reflexivity).
  cbn [pred].
  rewrite (scan_skip DATE_YY [53; 24180; 56; 26376; 49; 48] (26085 :: post)).
  rewrite scan_nondigit_nil; [|right; right; left|].
  2: { constructor; [by vm_compute|done]. }
  eexists. split; [done|]. split; [done|]. by vm_compute.
Qed.

(** Between texts without digits, 25年8月10日 is the only date found. *)
Lemma collect_dates_in_context (pre post : str) :
  no_digit pre → no_digit post →
  _collect_dates (pre ++ u "25年8月10日" ++ post)
  = Ok [(mkdate 2025 8 10, length pre)].
Proof.
  intros Hpre Hpost. rewrite collect_dates_validated.
  unfold date_matches, DATE_REGEXES. cbn [flat_map].
  rewrite finditer_ymd_none, finditer_mdy_none by done.
  destruct (finditer_yy_one pre post Hpre Hpost) as (m & -> & Hs & Hnum).
  cbn [app flat_map]. rewrite app_nil_r.
  rewrite (validated_of_valid m 2025 8 10 Hnum) by done. by rewrite Hs.
Qed.

End TwoDigitYear.

(** C7. A match of the two-digit-year pattern has two decimal digits in its
    group [y2]; the year of the match is 2000 plus their value, a year from
    2000 to 2099, and so is the year of the candidate when the match gives
    one. A text that has 25年8月10日 and no decimal digit before or after it,
    such as 25年8月10日 alone, has the event date 2025-08-10; with other
    digits in the text another match can give a later date. *)
Theorem two_digit_year_is_20xx (text : str) (m : match_obj) :
  m ∈ finditer DATE_YY text →
  (∃ (a b : char) (va vb : Z),
     groupdict m !! "y2" = Some (Some [a; b])
     ∧ decimal a = Some va ∧ decimal b = Some vb
     ∧ match_year (groupdict m) = Ok (Some (2000 + (10 * va + vb)))
     ∧ 2000 ≤ 2000 + (10 * va + vb) ≤ 2099
     ∧ ∀ c, c ∈ validated m → year c.1 = 2000 + (10 * va + vb))
  ∧ (∀ pre post : str, no_digit pre → no_digit post →
       parse_datetime (pre ++ u "25年8月10日" ++ post)
       = Ok {[ "event_date" := Some (u "2025-08-10") ]})
  ∧ parse_datetime (u "25年8月10日")
    = Ok {[ "event_date" := Some (u "2025-08-10") ]}.
Proof.
  intros Hm. split; [|split; [|vm_compute; reflexivity]].
  2: { intros pre post Hpre Hpost. unfold parse_datetime.
       by rewrite collect_dates_in_context. }
  apply date_yy_groups in Hm as (a & b & va & vb & wm & wd & Ha & Hb & Hgd).
  assert (match_year (groupdict m) = Ok (Some (2000 + (10 * va + vb))))
    as Hyear.
  { apply (match_year_yy _ [a; b]); [by rewrite Hgd|by rewrite Hgd|done|].
    by apply to_int_two_digits. }
  exists a, b, va, vb. split; [by rewrite Hgd|]. split; [done|].
  split; [done|]. split; [done|]. split.
  - apply decimal_range in Ha, Hb. lia.
  - intros c. unfold validated, match_numbers. rewrite Hyear.
    destruct (_to_int (dict_get (groupdict m) "m") None) as [M|];
      [|by intros ?%elem_of_nil].
    destruct (_to_int (dict_get (groupdict m) "d") None) as [d|];
      [|by intros ?%elem_of_nil].
    destruct (valid_date _ M d); [|by intros ?%elem_of_nil].
    by intros ->%list_elem_of_singleton.
Qed.

Lemma two_digit_year_is_20xx_witness :
  let text := u "発券 25年8月10日" in
  ∃ (a b : char) (va vb : Z),
    groupdict (first_match DATE_YY text) !! "y2" = Some (Some [a; b])
    ∧ decimal a = Some va ∧ decimal b = Some vb
    ∧ match_year (groupdict (first_match DATE_YY text))
      = Ok (Some (2000 + (10 * va + vb))).
Proof.
  intros text.
  destruct (two_digit_year_is_20xx text (first_match DATE_YY text))
    as [(a & b & va & vb & H1 & H2 & H3 & H4 & _) _].
  - vm_compute. apply list_elem_of_here.
  - exists a, b, va, vb. repeat split; assumption.
Defined.

(** A text that has 25年8月10日 and digits after it: the second pattern reads
    8月10日 2050, and the later date is the event date. *)
Lemma two_digit_year_outranked :
  let text := u "25年8月10日 2050円" in
  _collect_dates text
  = Ok [ (mkdate 2050 8 10, 3%nat); (mkdate 2025 8 10, 0%nat) ]
  ∧ parse_datetime text = Ok {[ "event_date" := Some (u "2050-08-10") ]}
  ∧ u "2050-08-10" ≠ u "2025-08-10".
Proof. repeat split; [vm_compute; reflexivity..|by vm_compute]. Qed.

(** C9. The text 1999年5月1日 has a four-digit year that does not begin with
    20. Neither pattern with a four-digit year matches it; the two-digit-year
    pattern matches from the third character, with 99 as its year, so the
    date 2099-05-01 is collected and returned as the event date. *)
Theorem year_1999_read_as_2099 :
  ∃ (text : str) (m : match_obj),
    text = u "1999年5月1日"
    ∧ finditer DATE_YMD text = [] ∧ finditer DATE_MDY text = []
    ∧ finditer DATE_YY text = [m]
    ∧ m_start m = 2%nat ∧ m_end m = 8%nat
    ∧ groupdict m !! "y2" = Some (Some (u "99"))
    ∧ match_year (groupdict m) = Ok (Some (2000 + 99))
    ∧ _collect_dates text = Ok [(mkdate 2099 5 1, 2%nat)]
    ∧ parse_datetime text = Ok {[ "event_date" := Some (u "2099-05-01") ]}.
Proof.
  exists (u "1999年5月1日"), (first_match DATE_YY (u "1999年5月1日")).
  repeat split; by vm_compute.
Qed.

(** ** Venues *)

Section Venue.

Lemma startswith_spec (p s : str) :
  startswith p s = true ↔ ∃ post, s = p ++ post.
Proof.
  revert s. induction p as [|a p IH]; intros s; simpl.
  - split; [by exists s|done].
  - destruct s as [|b s]; simpl.
    + split; [done|]. by intros [post ?].
    + rewrite andb_true_iff, Z.eqb_eq, IH. split.
      * intros [-> [post ->]]. by exists post.
      * intros [post [= -> ->]]. split; [done|by exists post].
Qed.

Lemma str_in_spec (sub s : str) : str_in sub s = true ↔ contains sub s.
Proof.
  unfold contains. induction s as [|c s IH]; simpl.
  - rewrite orb_false_r, startswith_spec. split.
    + intros [post H]. by exists [], post.
    + intros (pre & post & H). destruct pre; simpl in H; [by exists post|done].
  - rewrite orb_true_iff, startswith_spec, IH. split.
    + intros [[post H]|(pre & post & H)].
      * by exists [], post.
      * exists (c :: pre), post. simpl. by rewrite H.
    + intros (pre & post & H). destruct pre as [|c' pre]; simpl in H.
      * left. by exists post.
      * right. injection H as -> ->. by exists pre, post.
Qed.

End Venue.

(** C2. When some entry of the catalog occurs in the text, [parse_venue]
    returns the entry of least index among those that occur, wherever they
    stand in the text: no entry before it in the catalog occurs, and its
    index is at most that of any entry that occurs. When no entry occurs,
    it returns [None]. *)
Theorem parse_venue_catalog_order (text : str) :
  (∀ (i : nat) (v : str),
     VENUE_WORDS !! i = Some v → contains v text →
     ∃ (k : nat) (w : str),
       parse_venue text = Some w
       ∧ (k ≤ i)%nat ∧ VENUE_WORDS !! k = Some w ∧ contains w text
       ∧ ∀ (j : nat) (w' : str),
           (j < k)%nat → VENUE_WORDS !! j = Some w' → ¬ contains w' text)
  ∧ ((∀ v : str, v ∈ VENUE_WORDS → ¬ contains v text) →
     parse_venue text = None).
Proof.
  unfold parse_venue. split.
  - intros i v Hi Hv.
    destruct (list_find (fun v => Is_true (str_in v text)) VENUE_WORDS)
      as [[k w]|] eqn:Hfind.
    + apply list_find_Some in Hfind as (Hk & Hw & Hmin).
      exists k, w. simpl. split; [done|]. split; [|split; [done|split]].
      * destruct (decide (k ≤ i)%nat) as [|Hgt]; [done|].
        exfalso. apply (Hmin i v Hi); [lia|].
        by apply Is_true_true, str_in_spec.
      * by apply str_in_spec, Is_true_true.
      * intros j w' Hj Hw' Hc. apply (Hmin j w' Hw' Hj).
        by apply Is_true_true, str_in_spec.
    + apply list_find_None in Hfind.
      rewrite Forall_forall in Hfind. exfalso.
      apply (Hfind v); [by eapply list_elem_of_lookup_2|].
      by apply Is_true_true, str_in_spec.
  - intros Hnone.
    assert (list_find (fun v => Is_true (str_in v text)) VENUE_WORDS = None)
      as ->; [|done].
    apply list_find_None, Forall_forall. intros v Hv Hc.
    apply (Hnone v Hv). by apply str_in_spec, Is_true_true.
Qed.

Lemma parse_venue_catalog_order_witness :
  let text := u "東京ドームシティホール（旧） 日本武道館" in
  ∃ (k : nat) (w : str),
    parse_venue text = Some w ∧ (k ≤ 7)%nat ∧ VENUE_WORDS !! k = Some w.
Proof.
  intros text.
  destruct (parse_venue_catalog_order text) as [H _].
  destruct (H 7%nat (u "東京ドームシティホール")) as (k & w & Hw & Hk & Hkw & _).
  - vm_compute. reflexivity.
  - exists [], (u "（旧） 日本武道館"). vm_compute. reflexivity.
  - exists k, w. repeat split; assumption.
Defined.

(** The venue found does not depend on the place in the text. *)
Example venue_order_in_text :
  parse_venue (u "東京ドームシティホール（旧） 日本武道館") = Some (u "日本武道館")
  ∧ parse_venue (u "日本武道館 東京ドームシティホール") = Some (u "日本武道館")
  ∧ parse_venue (u "武道館") = None.
Proof. repeat split; by vm_compute. Qed.

(** ** Trimming and collapsing white space *)

Section Whitespace.

Lemma lstrip_solid (s : str) : starts_with_space (lstrip s) = false.
Proof.
  induction s as [|c s IH]; simpl; [done|].
  destruct (is_space c) eqn:Hc; [done|]. simpl. by rewrite Hc.
Qed.

Lemma lstrip_suffix (s : str) : lstrip s `suffix_of` s.
Proof.
  induction s as [|c s IH]; simpl; [done|].
  destruct (is_space c); [by apply suffix_cons_r|done].
Qed.

Lemma lstrip_length (s : str) : (length (lstrip s) ≤ length s)%nat.
Proof. apply suffix_length, lstrip_suffix. Qed.

Lemma lead_cons (c : char) (s : str) :
  lead (c :: s) = if is_space c then S (lead s) else O.
Proof.
  unfold lead. simpl. pose proof (lstrip_length s).
  destruct (is_space c); simpl; lia.
Qed.

Lemma ends_solid_cons (c : char) (s : str) :
  ends_solid s → ends_solid (c :: s).
Proof. intros (t & c' & -> & Hc). by exists (c :: t), c'. Qed.

Lemma ends_solid_cons_inv (c : char) (s : str) :
  ends_solid (c :: s) → (s = [] ∧ is_space c = false) ∨ ends_solid s.
Proof.
  intros (t & c' & H & Hc). destruct t as [|c0 t]; simpl in H.
  - injection H as -> ->. by left.
  - injection H as -> ->. right. by exists t, c'.
Qed.

Lemma ends_solid_rev (s : str) :
  ends_solid s → starts_with_space (rev s) = false.
Proof. intros (t & c & -> & Hc). by rewrite rev_app_distr. Qed.

Lemma solid_rev_ends (s : str) :
  s ≠ [] → starts_with_space (rev s) = false → ends_solid s.
Proof.
  intros Hne H. destruct (rev s) as [|c t] eqn:Hr.
  - apply (f_equal (@rev char)) in Hr. rewrite rev_involutive in Hr. done.
  - exists (rev t), c. split; [|done].
    apply (f_equal (@rev char)) in Hr. by rewrite rev_involutive in Hr.
Qed.

(** [strip] leaves no white space at either end. *)
Lemma strip_trimmed (s : str) : trimmed (strip s) = true.
Proof.
  unfold trimmed, strip, rstrip. rewrite rev_involutive, lstrip_solid.
  rewrite andb_true_r. apply negb_true_iff.
  destruct (lstrip (rev (lstrip s))) as [|c t] eqn:Hr; [done|].
  destruct (lstrip_suffix (rev (lstrip s))) as [w Hw]. rewrite Hr in Hw.
  apply (f_equal (@rev char)) in Hw. rewrite rev_involutive in Hw.
  rewrite rev_app_distr in Hw.
  pose proof (lstrip_solid s) as Hs. rewrite Hw in Hs.
  destruct (rev (c :: t)) as [|c' t'] eqn:Hc; [|done].
  apply (f_equal length) in Hc. rewrite length_rev in Hc. done.
Qed.

(** [\s+] at the head of a string takes all the white space there. *)
Lemma rep_spaces_all (s : str) (pos : nat) :
  rep is_space 0 None s pos (fun _ pos' => Some (pos', @nil (string * (nat * nat))))
  = Some ((pos + lead s)%nat, []).
Proof.
  revert pos. induction s as [|c s IH]; intros pos; simpl.
  - by rewrite Nat.add_0_r.
  - rewrite lead_cons. destruct (is_space c); simpl.
    + rewrite IH. do 2 f_equal. lia.
    + by rewrite Nat.add_0_r.
Qed.

Lemma match_at_spaces (c : char) (s : str) :
  match_at SPACES1 (c :: s)
  = if is_space c then Some (S (lead s), []) else None.
Proof.
  unfold match_at. simpl. destruct (is_space c); simpl; [|done].
  by rewrite rep_spaces_all.
Qed.

Lemma sub_spaces_cons (c : char) (s : str) :
  sub_from SPACES1 [0x20] (c :: s) 0
  = if is_space c then 0x20 :: sub_from SPACES1 [0x20] s (lead s)
    else c :: sub_from SPACES1 [0x20] s 0.
Proof.
  simpl. rewrite match_at_spaces. by destruct (is_space c).
Qed.

Lemma sub_spaces_lead_cons (c : char) (s : str) :
  sub_from SPACES1 [0x20] (c :: s) (lead (c :: s))
  = if is_space c then sub_from SPACES1 [0x20] s (lead s)
    else c :: sub_from SPACES1 [0x20] s 0.
Proof.
  rewrite lead_cons. destruct (is_space c) eqn:Hc; [done|].
  by rewrite sub_spaces_cons, Hc.
Qed.

(** After the substitution every white space is one space alone. *)
Lemma sub_spaces_collapsed (s : str) :
  runs_collapsed (sub_from SPACES1 [0x20] s 0) = true
  ∧ runs_collapsed (sub_from SPACES1 [0x20] s (lead s)) = true
  ∧ starts_with_space (sub_from SPACES1 [0x20] s (lead s)) = false.
Proof.
  induction s as [|c s (IH0 & IH1 & IH2)]; [done|].
  rewrite sub_spaces_cons, sub_spaces_lead_cons.
  destruct (is_space c) eqn:Hc.
  - split; [|done]. simpl. by rewrite IH1, IH2.
  - assert (runs_collapsed (c :: sub_from SPACES1 [0x20] s 0) = true) as H.
    { simpl. by rewrite Hc, IH0. }
    split; [done|]. split; [done|]. simpl. done.
Qed.

(** It keeps a first and a last character that are not white space. *)
Lemma sub_spaces_head (s : str) :
  starts_with_space s = false →
  starts_with_space (sub_from SPACES1 [0x20] s 0) = false.
Proof.
  destruct s as [|c s]; [done|]. simpl starts_with_space at 1. intros Hc.
  by rewrite sub_spaces_cons, Hc.
Qed.

Lemma sub_spaces_last (s : str) :
  ends_solid s →
  ends_solid (sub_from SPACES1 [0x20] s 0)
  ∧ ends_solid (sub_from SPACES1 [0x20] s (lead s)).
Proof.
  induction s as [|c s IH]; intros Hs.
  - destruct Hs as (t & c & H & _). by destruct t.
  - rewrite sub_spaces_cons, sub_spaces_lead_cons.
    apply ends_solid_cons_inv in Hs as [[-> Hc]|Hs].
    + rewrite Hc. simpl. split; by exists [], c.
    + destruct (IH Hs) as [IH0 IH1]. destruct (is_space c).
      * split; [by apply ends_solid_cons|done].
      * split; by apply ends_solid_cons.
Qed.

Lemma sub_spaces_nonempty_trimmed (s : str) :
  trimmed s = true → trimmed (sub SPACES1 [0x20] s) = true.
Proof.
  unfold trimmed, sub. intros [Hh Ht]%andb_prop.
  apply negb_true_iff in Hh, Ht. rewrite sub_spaces_head by done. simpl.
  apply negb_true_iff. destruct s as [|c s]; [done|].
  apply ends_solid_rev, sub_spaces_last, solid_rev_ends; done.
Qed.

End Whitespace.

(** ** Titles *)

Section Title.

Lemma title_lines_shape (text : str) (ln : str) :
  ln ∈ title_lines text → ln ≠ [] ∧ trimmed ln = true.
Proof.
  unfold title_lines. intros (raw & -> & Hraw)%list_elem_of_fmap.
  apply list_elem_of_In, filter_In in Hraw as [_ Hne].
  split; [|apply strip_trimmed]. by destruct (strip raw).
Qed.

Lemma parse_title_anchor (text : str) (start : nat) :
  find_start (title_lines text) = Some start →
  parse_title text = joined (title_parts (title_lines text) start).
Proof. unfold parse_title. by intros ->. Qed.

Lemma parse_title_fallback (text : str) :
  find_start (title_lines text) = None →
  parse_title text
  = snd <$> list_find (fun ln => Is_true (_is_upper_english ln)) (title_lines text).
Proof. unfold parse_title. by intros ->. Qed.

Lemma joined_shape (parts : list str) (t : str) :
  joined parts = Some t →
  t ≠ [] ∧ trimmed t = true ∧ runs_collapsed t = true.
Proof.
  unfold joined.
  destruct (sub SPACES1 (u " ") (strip (join (u " ") parts))) as [|c t'] eqn:Ht;
    [done|].
  simpl. intros [= <-]. rewrite <- Ht. split; [by rewrite Ht|]. split.
  - apply sub_spaces_nonempty_trimmed, strip_trimmed.
  - apply sub_spaces_collapsed.
Qed.

(** The walk takes lines from the head of [rest] while they are accepted,
    and no more than make three in all. *)
Lemma walk_spec (rest : list str) :
  ∀ parts : list str, (length parts < 3)%nat →
  ∃ k : nat,
    walk rest parts = parts ++ take k rest
    ∧ (length (parts ++ take k rest) ≤ 3)%nat
    ∧ Forall accepted (take k rest).
Proof.
  induction rest as [|ln rest IH]; intros parts Hlen; cbn [walk].
  - exists 0%nat. rewrite app_nil_r. split; [done|]. split; [lia|done].
  - destruct (is_stop ln) eqn:Hstop.
    { exists 0%nat. rewrite take_0, app_nil_r. split; [done|]. split; [lia|done]. }
    destruct (title_like ln) eqn:Hlike.
    2: { exists 0%nat. rewrite take_0, app_nil_r. split; [done|]. split; [lia|done]. }
    destruct (3 <=? length (parts ++ [ln]))%nat eqn:Hfull.
    + exists 1%nat. cbn [take]. rewrite take_0. split; [done|].
      rewrite length_app. cbn [length]. split; [lia|]. by repeat constructor.
    + apply Nat.leb_gt in Hfull.
      destruct (IH (parts ++ [ln]) Hfull) as (k & Hw & Hk & Hacc).
      exists (S k). cbn [take]. rewrite Hw, <- app_assoc.
      split; [done|]. split.
      * rewrite <- app_assoc in Hk. exact Hk.
      * by constructor.
Qed.

Lemma walk_three (a b c : str) (rest : list str) :
  accepted a → accepted b → accepted c → walk (a :: b :: c :: rest) [] = [a; b; c].
Proof.
  intros [Ha1 Ha2] [Hb1 Hb2] [Hc1 Hc2]. cbn [walk].
  by rewrite Ha1, Ha2, Hb1, Hb2, Hc1, Hc2.
Qed.

(** A stop line ends the walk as the end of the text does. *)
Lemma walk_stop (pre post : list str) (ln : str) :
  is_stop ln = true →
  ∀ parts, walk (pre ++ ln :: post) parts = walk pre parts.
Proof.
  intros Hstop. induction pre as [|x pre IH]; intros parts; cbn [walk app].
  - by rewrite Hstop.
  - destruct (is_stop x); [done|]. destruct (title_like x); [|done].
    destruct (3 <=? length (parts ++ [x]))%nat; [done|]. apply IH.
Qed.

End Title.

(** C3, amended. A title returned by [parse_title] is not empty and has no
    white space at either end. When a line with a keyword exists, every run
    of white space in it is one space. When none exists, the title is the
    first upper-case Latin line of the text, trimmed, with the white space
    inside it as it stands. *)
Theorem parse_title_shape (text t : str) :
  parse_title text = Some t →
  t ≠ [] ∧ trimmed t = true
  ∧ (∀ start, find_start (title_lines text) = Some start →
       runs_collapsed t = true)
  ∧ (find_start (title_lines text) = None →
       ∃ i : nat,
         title_lines text !! i = Some t ∧ _is_upper_english t = true
         ∧ ∀ (j : nat) (ln : str),
             (j < i)%nat → title_lines text !! j = Some ln →
             _is_upper_english ln = false).
Proof.
  intros Ht. destruct (find_start (title_lines text)) as [start|] eqn:Hs.
  - rewrite (parse_title_anchor text start Hs) in Ht.
    apply joined_shape in Ht as (Hne & Htrim & Hruns).
    split; [done|]. split; [done|]. split; [done|done].
  - rewrite (parse_title_fallback text Hs) in Ht.
    destruct (list_find _ _) as [[i t']|] eqn:Hfind; [|done].
    simpl in Ht. injection Ht as ->.
    apply list_find_Some in Hfind as (Hi & Hup & Hmin).
    destruct (title_lines_shape text t) as [Hne Htrim];
      [by eapply list_elem_of_lookup_2|].
    split; [done|]. split; [done|]. split; [done|]. intros _.
    exists i. split; [done|]. split; [by apply Is_true_true|].
    intros j ln Hj Hln. specialize (Hmin j ln Hln Hj).
    by destruct (_is_upper_english ln).
Qed.

Lemma parse_title_shape_witness :
  let text := u "  レ・ミゼラブル   WORLD	TOUR  " in
  ∃ t, parse_title text = Some t ∧ t ≠ [] ∧ trimmed t = true.
Proof.
  intros text.
  exists (u "レ・ミゼラブル WORLD TOUR").
  assert (parse_title text = Some (u "レ・ミゼラブル WORLD TOUR")) as H
    by (vm_compute; reflexivity).
  destruct (parse_title_shape text _ H) as (Hne & Htrim & _).
  split; [exact H|]. split; [exact Hne | exact Htrim].
Defined.

(** The title of the fallback keeps two spaces in a row. *)
Lemma parse_title_fallback_keeps_spaces :
  let text := u "ABCD  EFGH" in
  find_start (title_lines text) = None
  ∧ parse_title text = Some (u "ABCD  EFGH")
  ∧ runs_collapsed (u "ABCD  EFGH") = false
  ∧ normalized (u "ABCD  EFGH") = false.
Proof. repeat split; by vm_compute. Qed.

(** C4. The title span has at most three lines. It is made of the first
    lines from the anchor on, each of them accepted, and when the three
    lines from the anchor on are accepted it is exactly these three,
    whatever follows. *)
Theorem title_span_at_most_three (text : str) (start : nat) :
  find_start (title_lines text) = Some start →
  (length (title_parts (title_lines text) start) ≤ 3)%nat
  ∧ (∃ k : nat,
       title_parts (title_lines text) start
       = take k (drop start (title_lines text))
       ∧ Forall accepted (take k (drop start (title_lines text))))
  ∧ (∀ (a b c : str) (rest : list str),
       drop start (title_lines text) = a :: b :: c :: rest →
       accepted a → accepted b → accepted c →
       title_parts (title_lines text) start = [a; b; c]).
Proof.
  intros _. unfold title_parts.
  destruct (walk_spec (drop start (title_lines text)) []) as (k & Hw & Hk & Hacc);
    [simpl; lia|].
  simpl in Hw, Hk. split; [by rewrite Hw|]. split; [by exists k|].
  intros a b c rest -> Ha Hb Hc. by apply walk_three.
Qed.

Lemma title_span_at_most_three_witness :
  let text := u "ライブ A
ライブ B
ライブ C
ライブ D" in
  (length (title_parts (title_lines text) 0) ≤ 3)%nat
  ∧ title_parts (title_lines text) 0 = [u "ライブ A"; u "ライブ B"; u "ライブ C"].
Proof.
  intros text.
  destruct (title_span_at_most_three text 0) as (Hlen & _ & Hthree).
  - vm_compute. reflexivity.
  - split; [exact Hlen|].
    apply (Hthree _ _ _ [u "ライブ D"]).
    + vm_compute. reflexivity.
    + split; vm_compute; reflexivity.
    + split; vm_compute; reflexivity.
    + split; vm_compute; reflexivity.
Defined.

(** C5. When a line from the anchor on matches the stop pattern, the title
    span is what the walk gives on the lines before it: it is made of lines
    that come before the stop line, and the title is the one of the text cut
    before the stop line, whatever the stop line and the lines after it
    contain. *)
Theorem title_stops_at_stop_line (text : str) (start : nat)
    (pre post : list str) (ln : str) :
  find_start (title_lines text) = Some start →
  drop start (title_lines text) = pre ++ ln :: post →
  is_stop ln = true →
  title_parts (title_lines text) start = walk pre []
  ∧ (∃ k : nat, title_parts (title_lines text) start = take k pre)
  ∧ parse_title text = joined (walk pre []).
Proof.
  intros Hs Hdrop Hstop.
  assert (title_parts (title_lines text) start = walk pre []) as Hparts.
  { unfold title_parts. rewrite Hdrop. by apply walk_stop. }
  split; [done|]. split.
  - rewrite Hparts. destruct (walk_spec pre []) as (k & Hw & _); [simpl; lia|].
    by exists k.
  - by rewrite (parse_title_anchor text start Hs), Hparts.
Qed.

Lemma title_stops_at_stop_line_witness :
  let text := u "チケット
レ・ミゼラブル WORLD TOUR
『LES MISERABLES』
主催：ライブ事務局
ワールドツアー 公演
ABCD" in
  parse_title text = Some (u "レ・ミゼラブル WORLD TOUR 『LES MISERABLES』").
Proof.
  intros text.
  destruct (title_stops_at_stop_line text 1
              [u "レ・ミゼラブル WORLD TOUR"; u "『LES MISERABLES』"]
              [u "ワールドツアー 公演"; u "ABCD"]
              (u "主催：ライブ事務局")) as (_ & _ & H).
  - vm_compute. reflexivity.
  - vm_compute. reflexivity.
  - vm_compute. reflexivity.
  - rewrite H. vm_compute. reflexivity.
Defined.

(** C10. When the first line with a keyword also matches the stop pattern,
    no line is taken and [parse_title] returns [None]; the upper-case Latin
    lines of the text are not looked at. *)
Theorem stop_anchor_gives_no_title (text : str) (start : nat) (ln : str) :
  find_start (title_lines text) = Some start →
  title_lines text !! start = Some ln →
  is_stop ln = true →
  title_parts (title_lines text) start = []
  ∧ parse_title text = None.
Proof.
  intros Hs Hln Hstop.
  assert (title_parts (title_lines text) start = []) as Hparts.
  { unfold title_parts. rewrite (drop_S _ _ _ Hln). simpl. by rewrite Hstop. }
  split; [done|].
  by rewrite (parse_title_anchor text start Hs), Hparts.
Qed.

Lemma stop_anchor_gives_no_title_witness :
  let text := u "ABCD
公演 主催：EFGH
WORLD TOUR" in
  _is_upper_english (u "ABCD") = true
  ∧ title_lines text !! 0%nat = Some (u "ABCD")
  ∧ parse_title text = None.
Proof.
  intros text. split; [vm_compute; reflexivity|].
  split; [vm_compute; reflexivity|].
  apply (stop_anchor_gives_no_title text 1 (u "公演 主催：EFGH"));
    vm_compute; reflexivity.
Defined.

(** ** Worked inputs *)

(** The stop pattern is matched without regard to case. *)
Example stop_pattern_ignores_case :
  is_stop (u "tel：03-0000-0000") = true
  ∧ is_stop (u "Https://example.jp") = true
  ∧ is_stop (u "hp:example") = true
  ∧ is_stop (u "cnプレイガイド") = true
  ∧ is_stop (u "WORLD TOUR") = false.
Proof. repeat split; vm_compute; reflexivity. Qed.

(** Two dates in two forms, in either order: the later one is chosen. *)
Example latest_of_two_dates :
  parse_datetime (u "2025年8月10日
2025/7/1") = Ok {[ "event_date" := Some (u "2025-08-10") ]}
  ∧ parse_datetime (u "2025/7/1
2025年8月10日") = Ok {[ "event_date" := Some (u "2025-08-10") ]}
  ∧ parse_datetime (u "8月10日(日)2025年 発券 2025.7.1")
    = Ok {[ "event_date" := Some (u "2025-08-10") ]}.
Proof. repeat split; vm_compute; reflexivity. Qed.

(** Digits of other scripts are digits too. *)
Example fullwidth_two_digit_year :
  parse_datetime (u "２５年８月１０日")
  = Ok {[ "event_date" := Some (u "2025-08-10") ]}.
Proof. vm_compute. reflexivity. Qed.

(** A text with nothing to find. *)
Example nothing_found :
  parse_datetime (u "[No OCR result - Vision client not available]")
  = Ok {[ "event_date" := None ]}
  ∧ parse_venue (u "[No OCR result - Vision client not available]") = None
  ∧ parse_title (u "[No OCR result - Vision client not available]") = None.
Proof. repeat split; vm_compute; reflexivity. Qed.

(** ** Upper-case Latin lines *)

Section UpperEnglish.

Lemma match_at_non_letter (c : char) (s : str) :
  match_at NON_LETTER (c :: s)
  = if is_ascii_alpha c then None else Some (1%nat, []).
Proof. unfold match_at. simpl. by destruct (is_ascii_alpha c). Qed.

(** Removing what is not a letter keeps the letters, in order. *)
Lemma sub_non_letter (s : str) :
  sub NON_LETTER [] s = List.filter is_ascii_alpha s.
Proof.
  unfold sub. induction s as [|c s IH]; [done|].
  cbn [sub_from List.filter]. rewrite match_at_non_letter.
  destruct (is_ascii_alpha c); simpl; by rewrite IH.
Qed.

Lemma upper_not_lower (c : char) :
  is_ascii_upper c = true → is_ascii_lower c = false.
Proof. unfold is_ascii_upper, is_ascii_lower. lia. Qed.

Lemma isupper_ascii_letters (l : str) :
  Forall (fun c => is_ascii_alpha c = true) l → l ≠ [] →
  (isupper_ascii l = true ↔ Forall (fun c => is_ascii_lower c = false) l).
Proof.
  intros Hl Hne. unfold isupper_ascii.
  rewrite andb_true_iff, negb_true_iff.
  split.
  - intros [_ Hno]. apply Forall_forall. intros c Hc.
    destruct (is_ascii_lower c) eqn:Hlow; [|done].
    assert (existsb is_ascii_lower l = true) as Hex; [|congruence].
    apply existsb_exists. exists c. split; [by apply list_elem_of_In|done].
  - intros Hno. split.
    + destruct l as [|c l]; [done|]. simpl.
      apply Forall_cons in Hl as [Hc _], Hno as [Hlow _].
      unfold is_ascii_alpha in Hc. rewrite Hlow, orb_false_r in Hc.
      by rewrite Hc.
    + destruct (existsb is_ascii_lower l) eqn:Hex; [|done].
      apply existsb_exists in Hex as (c & Hc%list_elem_of_In & Hlow).
      rewrite Forall_forall in Hno. by rewrite (Hno c Hc) in Hlow.
Qed.

(** X1. [_is_upper_english] holds of a text exactly when the text has at
    least four ASCII letters and none of them is lower case; what is not
    an ASCII letter plays no part. *)
Theorem is_upper_english_iff (s : str) :
  _is_upper_english s = true ↔
  (4 ≤ length (List.filter is_ascii_alpha s))%nat
  ∧ ∀ c, c ∈ s → is_ascii_lower c = false.
Proof.
  unfold _is_upper_english. rewrite sub_non_letter, andb_true_iff.
  rewrite Nat.leb_le.
  assert (Forall (fun c => is_ascii_alpha c = true) (List.filter is_ascii_alpha s))
    as Hall.
  { apply Forall_forall. intros c Hc%list_elem_of_In%filter_In. tauto. }
  split.
  - intros [Hlen Hup]. split; [done|].
    apply isupper_ascii_letters in Hup; [|done|by intros E; rewrite E in Hlen; simpl in Hlen; lia].
    intros c Hc. destruct (is_ascii_lower c) eqn:Hlow; [|done].
    rewrite Forall_forall in Hup. rewrite <- Hlow. apply Hup.
    apply list_elem_of_In, filter_In. split; [by apply list_elem_of_In|].
    unfold is_ascii_alpha. by rewrite Hlow, orb_true_r.
  - intros [Hlen Hlow]. split; [done|].
    apply isupper_ascii_letters; [done|by intros E; rewrite E in Hlen; simpl in Hlen; lia|].
    apply Forall_forall. intros c Hc%list_elem_of_In%filter_In.
    apply Hlow, list_elem_of_In. tauto.
Qed.

End UpperEnglish.

(** ** Texts without digits, the venue, and the stop words *)

Section NoDigits.

(** X2. A text without a decimal digit has no date: [_collect_dates] gives
    the empty list and [parse_datetime] gives [None], with nothing raised. *)
Theorem no_digit_no_date (text : str) :
  no_digit text →
  _collect_dates text = Ok []
  ∧ parse_datetime text = Ok {[ "event_date" := None ]}.
Proof.
  intros Hnd.
  assert (date_matches text = []) as Hnone.
  { unfold date_matches, DATE_REGEXES, finditer. cbn [flat_map].
    rewrite !scan_nondigit_nil; try done.
    - right; right; left.
    - right; left.
    - left. }
  split.
  - by rewrite collect_dates_validated, Hnone.
  - by rewrite parse_datetime_validated, Hnone.
Qed.

Lemma no_digit_no_date_witness :
  parse_datetime (u "ライブ 日本武道館 年月日") = Ok {[ "event_date" := None ]}.
Proof.
  apply (no_digit_no_date (u "ライブ 日本武道館 年月日")).
  unfold no_digit. apply Forall_forall. intros c Hc.
  vm_compute in Hc. repeat (apply elem_of_cons in Hc as [->|Hc]; [by vm_compute|]).
  by apply elem_of_nil in Hc.
Defined.

End NoDigits.

Section VenueVerbatim.

(** X3. The venue returned is a word of the catalogue that occurs in the
    text, and [parse_venue] applied to it gives it again. *)
Theorem parse_venue_verbatim (text v : str) :
  parse_venue text = Some v →
  v ∈ VENUE_WORDS ∧ contains v text ∧ parse_venue v = Some v.
Proof.
  unfold parse_venue at 1.
  destruct (list_find _ VENUE_WORDS) as [[i w]|] eqn:Hfind; [|done].
  simpl. intros [= ->]. apply list_find_Some in Hfind as (Hi & Hv & _).
  apply list_elem_of_lookup_2 in Hi.
  split; [done|]. split; [by apply str_in_spec, Is_true_true|].
  unfold VENUE_WORDS in Hi. simpl in Hi.
  repeat (apply elem_of_cons in Hi as [->|Hi]; [vm_compute; reflexivity|]).
  by apply elem_of_nil in Hi.
Qed.

Lemma parse_venue_verbatim_witness :
  u "日本武道館" ∈ VENUE_WORDS
  ∧ contains (u "日本武道館") (u "会場 日本武道館 開演")
  ∧ parse_venue (u "日本武道館") = Some (u "日本武道館").
Proof.
  apply (parse_venue_verbatim (u "会場 日本武道館 開演") (u "日本武道館")).
  vm_compute. reflexivity.
Defined.

End VenueVerbatim.

Section StopWords.

Lemma stop_word_matches (w rest : str) :
  w ∈ STOP_WORDS → ∃ len g, match_at TITLE_STOP_PAT (w ++ rest) = Some (len, g).
Proof.
  intros Hw. unfold STOP_WORDS in Hw. simpl in Hw.
  repeat (apply elem_of_cons in Hw as [->|Hw];
          [do 2 eexists; vm_compute; reflexivity|]).
  by apply elem_of_nil in Hw.
Qed.

(** A place where the pattern matches makes the scan report a match. *)
Lemma scan_finds (p : pattern) (c0 : char) (s0 : str) (len : nat) (g : caps)
    (s : str) :
  match_at p (c0 :: s0) = Some (len, g) → (c0 :: s0) `suffix_of` s →
  ∀ pos, scan p s pos 0 ≠ [].
Proof.
  intros Hm. induction s as [|c s IH]; intros Hsuf pos.
  - by apply suffix_nil_inv in Hsuf.
  - simpl. destruct (match_at p (c :: s)) as [[len' g']|] eqn:Hhere; [done|].
    apply suffix_cons_inv in Hsuf as [[= -> ->]|Hsuf]; [congruence|]. by apply IH.
Qed.

Lemma stop_word_nonempty (w : str) : w ∈ STOP_WORDS → w ≠ [].
Proof.
  intros Hw ->. unfold STOP_WORDS in Hw. simpl in Hw.
  repeat (apply elem_of_cons in Hw as [Hw|Hw]; [by vm_compute in Hw|]).
  by apply elem_of_nil in Hw.
Qed.

(** A line in which a stop word occurs is a stop line. *)
Lemma stop_word_is_stop (w ln : str) :
  w ∈ STOP_WORDS → contains w ln → is_stop ln = true.
Proof.
  intros Hw (pre & post & ->).
  destruct (stop_word_matches w post Hw) as (len & g & Hm).
  pose proof (stop_word_nonempty w Hw) as Hne.
  destruct w as [|c0 w0]; [done|].
  unfold is_stop, search, finditer.
  pose proof (scan_finds TITLE_STOP_PAT c0 (w0 ++ post) len g
                (pre ++ (c0 :: w0) ++ post) Hm) as Hs.
  destruct (scan _ _ _ _) eqn:E; [|done].
  exfalso. apply (Hs (suffix_app_r _ _ _ (reflexivity _)) 0%nat). exact E.
Qed.

Lemma walk_accepted (rest parts : list str) :
  Forall accepted parts → Forall accepted (walk rest parts).
Proof.
  revert parts. induction rest as [|ln rest IH]; intros parts Hp; cbn [walk];
    [done|].
  destruct (is_stop ln) eqn:Hstop; [done|].
  destruct (title_like ln) eqn:Hlike; [|done].
  assert (Forall accepted (parts ++ [ln])) as Hp'.
  { apply Forall_app. split; [done|]. by repeat constructor. }
  destruct (3 <=? _)%nat; [done|]. by apply IH.
Qed.

(** X4. No line taken into the title has a word of the stop pattern in
    it. *)
Theorem title_span_has_no_stop_word (text : str) (start : nat) (ln w : str) :
  ln ∈ title_parts (title_lines text) start →
  w ∈ STOP_WORDS →
  ¬ contains w ln.
Proof.
  intros Hln Hw Hc.
  assert (Forall accepted (title_parts (title_lines text) start)) as Hall
    by (by apply walk_accepted).
  rewrite Forall_forall in Hall. destruct (Hall ln Hln) as [Hstop _].
  by rewrite (stop_word_is_stop w ln Hw Hc) in Hstop.
Qed.

Lemma title_span_has_no_stop_word_witness :
  ¬ contains (u "主催") (u "ライブ 2025").
Proof.
  apply (title_span_has_no_stop_word (u "ライブ 2025
主催 X") 0 (u "ライブ 2025") (u "主催")).
  - apply (bool_decide_unpack _). vm_compute. exact I.
  - apply (bool_decide_unpack _). vm_compute. exact I.
Defined.

End StopWords.

(** ** When there is a title *)

Section TitlePresence.

Lemma lstrip_snoc_solid (x : str) (c : char) :
  is_space c = false → ∃ y, lstrip (x ++ [c]) = y ++ [c].
Proof.
  intros Hc. induction x as [|a x [y IH]]; simpl.
  - rewrite Hc. by exists [].
  - destruct (is_space a); [by exists y|]. by exists (a :: x).
Qed.

(** Trimming keeps a first character that is not white space. *)
Lemma strip_head (c : char) (t : str) :
  is_space c = false → ∃ t', strip (c :: t) = c :: t'.
Proof.
  intros Hc. unfold strip, rstrip. simpl lstrip. rewrite Hc. simpl.
  destruct (lstrip_snoc_solid (rev t) c Hc) as [y Hy]. rewrite Hy.
  rewrite rev_app_distr. simpl. by eexists.
Qed.

Lemma joined_head (ln : str) (more : list str) :
  ln ≠ [] → trimmed ln = true → is_Some (joined (ln :: more)).
Proof.
  intros Hne Htrim. destruct ln as [|c t]; [done|].
  unfold trimmed in Htrim. apply andb_prop in Htrim as [Hc _].
  apply negb_true_iff in Hc. simpl in Hc.
  unfold joined.
  assert (∃ r, join (u " ") (@cons str (c :: t) more) = c :: r) as [r Hr].
  { destruct more; simpl; by eexists. }
  rewrite Hr.
  destruct (strip_head c r Hc) as [t' ->].
  unfold sub. change (u " ") with [0x20]. rewrite sub_spaces_cons, Hc. done.
Qed.

Lemma walk_first (ln : str) (rest : list str) :
  accepted ln → ∃ more, walk (ln :: rest) [] = ln :: more.
Proof.
  intros [Hs Hl]. cbn [walk]. rewrite Hs, Hl. simpl.
  destruct (walk_spec rest [ln]) as (k & -> & _); [simpl; lia|]. by eexists.
Qed.

Lemma has_keyword_title_like (ln : str) :
  has_keyword ln = true → title_like ln = true.
Proof. unfold title_like. by intros ->. Qed.

(** X5. [parse_title] returns [None] in two cases only: the anchor line is a
    stop line, or there is neither an anchor nor an upper-case Latin line. *)
Theorem parse_title_none_iff (text : str) :
  parse_title text = None ↔
  match find_start (title_lines text) with
  | Some start =>
    ∃ ln, title_lines text !! start = Some ln ∧ is_stop ln = true
  | None =>
    ∀ ln, ln ∈ title_lines text → _is_upper_english ln = false
  end.
Proof.
  destruct (find_start (title_lines text)) as [start|] eqn:Hs.
  - rewrite (parse_title_anchor text start Hs).
    unfold find_start in Hs.
    destruct (list_find _ _) as [[i ln]|] eqn:Hfind; [|done].
    simpl in Hs. injection Hs as ->.
    apply list_find_Some in Hfind as (Hi & Hkw & _).
    apply Is_true_true in Hkw.
    unfold title_parts. rewrite (drop_S _ _ _ Hi).
    destruct (is_stop ln) eqn:Hstop.
    + cbn [walk]. rewrite Hstop. split; [|done]. intros _. by exists ln.
    + split; [|by intros (ln' & Hln' & Hst); congruence].
      intros Hnone. exfalso.
      destruct (walk_first ln (drop (S start) (title_lines text))) as [more Hw].
      { split; [done|by apply has_keyword_title_like]. }
      rewrite Hw in Hnone.
      destruct (title_lines_shape text ln) as [Hne Htrim];
        [by eapply list_elem_of_lookup_2|].
      destruct (joined_head ln more Hne Htrim) as [t Ht]. congruence.
  - rewrite (parse_title_fallback text Hs).
    destruct (list_find _ _) as [[i ln]|] eqn:Hfind; simpl.
    + split; [done|]. intros Hall. exfalso.
      apply list_find_Some in Hfind as (Hi & Hup & _).
      apply Is_true_true in Hup.
      rewrite Hall in Hup; [done|by eapply list_elem_of_lookup_2].
    + split; [|done]. intros _ ln Hln.
      apply list_find_None in Hfind. rewrite Forall_forall in Hfind.
      specialize (Hfind ln Hln). by destruct (_is_upper_english ln).
Qed.

End TitlePresence.

(** ** The dates that are collected *)

Section Spans.

(** What a pattern reads is a prefix of the text, as long as the offsets
    say. *)
Lemma consumes_span (ic : bool) (r : regex) :
  ∀ s pos s' pos' g g',
  consumes ic r s pos s' pos' g g' →
  ∃ w, s = w ++ s' ∧ pos' = (pos + length w)%nat.
Proof.
  induction r as [|c|p|r1 IH1 r2 IH2|r1 IH1 r2 IH2|lo hi p|r1 IH1|name r1 IH1];
    intros s pos s' pos' g g'; simpl.
  - intros (-> & -> & _). exists []. split; [done|]. simpl. lia.
  - intros (ch & -> & -> & _). exists [ch]. split; [done|]. simpl. lia.
  - intros (ch & -> & -> & _). exists [ch]. split; [done|]. simpl. lia.
  - intros (s1 & pos1 & g1 & H1 & H2).
    apply IH1 in H1 as (w1 & -> & ->). apply IH2 in H2 as (w2 & -> & ->).
    exists (w1 ++ w2). rewrite <- app_assoc, length_app. split; [done|lia].
  - intros [H|H]; [by apply IH1 in H|by apply IH2 in H].
  - intros (w & -> & -> & _). by exists w.
  - intros [H|(-> & -> & _)]; [by apply IH1 in H|].
    exists []. split; [done|]. simpl. lia.
  - intros (g1 & H & _). by apply IH1 in H.
Qed.

Lemma consumes_drop (ic : bool) (r : regex) (text s s' : str)
    (pos pos' : nat) (g g' : caps) :
  consumes ic r s pos s' pos' g g' →
  drop pos text = s → drop pos' text = s'.
Proof.
  intros (w & -> & ->)%consumes_span Hd.
  rewrite <- drop_drop, Hd. by rewrite drop_app_length.
Qed.

Lemma consumes_no_groups (ic : bool) (r : regex) :
  group_names r = [] →
  ∀ s pos s' pos' g g', consumes ic r s pos s' pos' g g' → g' = g.
Proof.
  induction r as [|c|p|r1 IH1 r2 IH2|r1 IH1 r2 IH2|lo hi p|r1 IH1|name r1 IH1];
    simpl; intros Hn s pos s' pos' g g'.
  - by intros (_ & _ & ->).
  - by intros (ch & _ & _ & _ & ->).
  - by intros (ch & _ & _ & _ & ->).
  - apply app_eq_nil in Hn as [Hn1 Hn2].
    intros (s1 & pos1 & g1 & H1 & H2).
    apply (IH1 Hn1) in H1 as ->. by apply (IH2 Hn2) in H2.
  - apply app_eq_nil in Hn as [Hn1 Hn2].
    intros [H|H]; [by apply (IH1 Hn1) in H|by apply (IH2 Hn2) in H].
  - by intros (w & _ & _ & _ & _ & _ & ->).
  - intros [H|(_ & _ & ->)]; [by apply (IH1 Hn) in H|done].
  - done.
Qed.

(** The matches of a scan lie inside the text, and each is as long as what
    the pattern read. *)
Lemma scan_bounds (p : pattern) (m : match_obj) (s : str) :
  ∀ pos skip, m ∈ scan p s pos skip →
  (pos ≤ m_start m)%nat ∧ (m_start m < pos + length s)%nat
  ∧ (m_start m ≤ m_end m)%nat ∧ (m_end m ≤ pos + length s)%nat.
Proof.
  induction s as [|c s IH]; intros pos skip; simpl.
  - by intros ?%elem_of_nil.
  - assert (∀ skip', m ∈ scan p s (S pos) skip' →
              (pos ≤ m_start m)%nat ∧ (m_start m < pos + S (length s))%nat
              ∧ (m_start m ≤ m_end m)%nat
              ∧ (m_end m ≤ pos + S (length s))%nat) as IH'.
    { intros skip' Hin. apply IH in Hin. lia. }
    destruct skip as [|skip]; [|apply IH'].
    destruct (match_at p (c :: s)) as [[len g]|] eqn:Hm; [|apply IH'].
    intros [->|Hin]%elem_of_cons; [|by eapply IH'].
    apply match_at_sound in Hm as [rest Hm].
    apply consumes_span in Hm as (w & Hw & ->).
    apply (f_equal length) in Hw. rewrite length_app in Hw. simpl in *. lia.
Qed.

Lemma consumes_captured_other (ic : bool) (name : string) (r : regex) :
  name ∉ group_names r →
  ∀ s pos s' pos' g g',
  consumes ic r s pos s' pos' g g' → captured g' name = captured g name.
Proof.
  induction r as [|c|p|r1 IH1 r2 IH2|r1 IH1 r2 IH2|lo hi p|r1 IH1|name' r1 IH1];
    simpl; intros Hn s pos s' pos' g g'.
  - by intros (_ & _ & ->).
  - by intros (ch & _ & _ & _ & ->).
  - by intros (ch & _ & _ & _ & ->).
  - apply not_elem_of_app in Hn as [Hn1 Hn2].
    intros (s1 & pos1 & g1 & H1 & H2).
    apply (IH1 Hn1) in H1. apply (IH2 Hn2) in H2. congruence.
  - apply not_elem_of_app in Hn as [Hn1 Hn2].
    intros [H|H]; [by apply (IH1 Hn1) in H|by apply (IH2 Hn2) in H].
  - by intros (w & _ & _ & _ & _ & _ & ->).
  - intros [H|(_ & _ & ->)]; [by apply (IH1 Hn) in H|done].
  - apply not_elem_of_cons in Hn as [Hne Hn].
    intros (g1 & H & ->). simpl.
    destruct (String.eqb_spec name' name) as [->|_]; [done|].
    by apply (IH1 Hn) in H.
Qed.

Lemma consumes_cat_inv (ic : bool) (r1 r2 : regex) s pos s' pos' g g' :
  consumes ic (Cat r1 r2) s pos s' pos' g g' →
  ∃ s1 pos1 g1,
    consumes ic r1 s pos s1 pos1 g g1 ∧ consumes ic r2 s1 pos1 s' pos' g1 g'.
Proof. done. Qed.

(** The group of a four-digit year holds 20 and two digits. *)
Lemma year4_group (text s s' : str) (pos pos' : nat) (g g' : caps) :
  consumes false
    (Grp "y" (Cat (Cat (Lit 0x32) (Cat (Lit 0x30) Eps))
                (Cat (Rep 2 (Some 2%nat) is_digit) Eps)))
    s pos s' pos' g g' →
  drop pos text = s →
  ∃ (a b : char) (va vb : Z),
    decimal a = Some va ∧ decimal b = Some vb
    ∧ (fun w => slice text w.1 w.2) <$> captured g' "y" = Some [50; 48; a; b].
Proof.
  cbn [consumes].
  intros (g1 & (s1 & p1 & g2 & (s2 & p2 & g3 & (c1 & -> & -> & Hc1 & ->)
            & s3 & p3 & g4 & (c2 & -> & -> & Hc2 & ->) & -> & -> & ->)
            & s4 & p4 & g5 & (w & -> & -> & Hw & Hlo & Hhi & ->) & -> & -> & ->)
          & ->) Hd.
  apply Z.eqb_eq in Hc1 as ->, Hc2 as ->.
  specialize (Hhi 2%nat eq_refl).
  destruct w as [|a [|b [|? ?]]]; simpl in Hlo, Hhi; try lia.
  apply Forall_cons in Hw as [Ha Hw]. apply Forall_cons in Hw as [Hb _].
  apply decimal_of_digit in Ha as [va Ha], Hb as [vb Hb].
  exists a, b, va, vb. split; [done|]. split; [done|].
  simpl. unfold slice. simpl. rewrite Hd.
  replace (S (S (pos + 2)) - pos)%nat with 4%nat by lia. done.
Qed.

Ltac cat_step H Hd :=
  let s := fresh "s" in
  let p := fresh "p" in
  let g := fresh "g" in
  let H1 := fresh "H" in
  apply consumes_cat_inv in H as (s & p & g & H1 & H);
  let Hd' := fresh "Hd" in
  pose proof (consumes_drop _ _ _ _ _ _ _ _ _ H1 Hd) as Hd';
  clear Hd; rename Hd' into Hd.

Ltac not_a_name :=
  rewrite ?not_elem_of_app, ?not_elem_of_cons; repeat split;
  first [ apply not_elem_of_nil | discriminate ].

Lemma groupdict_y (r : regex) (s : str) (g : caps) (w : str) :
  "y" ∈ group_names r →
  (fun w => slice s w.1 w.2) <$> captured g "y" = Some w →
  groupdict_of r s g !! "y" = Some (Some w).
Proof.
  unfold groupdict_of. intros Hin Hw.
  induction (group_names r) as [|n ns IH]; [by apply elem_of_nil in Hin|].
  simpl. destruct (decide (n = "y")) as [->|Hne].
  - by rewrite lookup_insert_eq, Hw.
  - rewrite lookup_insert_ne by done. apply IH.
    by apply elem_of_cons in Hin as [?|?].
Qed.

Lemma date_ymd_year (text : str) (m : match_obj) :
  m ∈ finditer DATE_YMD text →
  ∃ (a b : char) (va vb : Z),
    decimal a = Some va ∧ decimal b = Some vb
    ∧ groupdict m !! "y" = Some (Some [50; 48; a; b]).
Proof.
  intros Hm. apply scan_sound in Hm as (s1 & len & g & Hm & _ & _ & Hgd).
  apply match_at_sound in Hm as [rest Hm]. rewrite ast_DATE_YMD in Hm.
  pose proof (drop_0 s1) as Hd.
  apply consumes_cat_inv in Hm as (s2 & p2 & g2 & Hy & Hm).
  destruct (year4_group s1 _ _ _ _ _ _ Hy Hd) as (a & b & va & vb & Ha & Hb & Hc).
  exists a, b, va, vb. split; [done|]. split; [done|].
  rewrite Hgd. apply groupdict_y.
  - rewrite ast_DATE_YMD. simpl. left.
  - assert (captured g "y" = captured g2 "y") as ->; [|done].
    eapply consumes_captured_other; [|exact Hm]. simpl. not_a_name.
Qed.

Lemma date_mdy_year (text : str) (m : match_obj) :
  m ∈ finditer DATE_MDY text →
  ∃ (a b : char) (va vb : Z),
    decimal a = Some va ∧ decimal b = Some vb
    ∧ groupdict m !! "y" = Some (Some [50; 48; a; b]).
Proof.
  intros Hm. apply scan_sound in Hm as (s1 & len & g & Hm & _ & _ & Hgd).
  apply match_at_sound in Hm as [rest Hm]. rewrite ast_DATE_MDY in Hm.
  pose proof (drop_0 s1) as Hd.
  do 9 (cat_step Hm Hd).
  apply consumes_cat_inv in Hm as (sy & py & gy & Hy & Hm).
  destruct (year4_group s1 _ _ _ _ _ _ Hy Hd) as (a & b & va & vb & Ha & Hb & Hc).
  exists a, b, va, vb. split; [done|]. split; [done|].
  rewrite Hgd. apply groupdict_y.
  - rewrite ast_DATE_MDY. simpl. do 2 right. left.
  - assert (captured g "y" = captured gy "y") as ->; [|done].
    eapply consumes_captured_other; [|exact Hm]. simpl. not_a_name.
Qed.

Lemma match_year_y (gd : gmap string (option str)) (w : str) :
  gd !! "y" = Some (Some w) → w ≠ [] →
  match_year gd = Ok (_to_int (Some w) None).
Proof.
  intros Hy Hw. unfold match_year, dict_get, getitem. rewrite Hy. simpl.
  by destruct w.
Qed.

Lemma to_int_year4 (a b : char) (va vb : Z) :
  decimal a = Some va → decimal b = Some vb →
  _to_int (Some [50; 48; a; b]) None = Some (2000 + (10 * va + vb)).
Proof.
  intros Ha Hb. apply to_int_digits; [|done|simpl; unfold INT_MAX_STR_DIGITS; lia].
  cbn [decimal_value].
  change (decimal 50) with (Some 2). change (decimal 48) with (Some 0).
  rewrite Ha, Hb. f_equal; lia.
Qed.

(** The year of a match of any of the three patterns. *)
Lemma date_match_year (text : str) (m : match_obj) :
  m ∈ date_matches text →
  ∃ y, match_year (groupdict m) = Ok (Some y) ∧ 2000 ≤ y ≤ 2099.
Proof.
  unfold date_matches, DATE_REGEXES. cbn [flat_map]. rewrite app_nil_r.
  intros [Hm|[Hm|Hm]%elem_of_app]%elem_of_app.
  - apply date_ymd_year in Hm as (a & b & va & vb & Ha & Hb & Hy).
    exists (2000 + (10 * va + vb)). split.
    + rewrite (match_year_y _ _ Hy) by done. f_equal. by apply to_int_year4.
    + apply decimal_range in Ha, Hb. lia.
  - apply date_mdy_year in Hm as (a & b & va & vb & Ha & Hb & Hy).
    exists (2000 + (10 * va + vb)). split.
    + rewrite (match_year_y _ _ Hy) by done. f_equal. by apply to_int_year4.
    + apply decimal_range in Ha, Hb. lia.
  - apply date_yy_groups in Hm as (a & b & va & vb & wm & wd & Ha & Hb & Hgd).
    exists (2000 + (10 * va + vb)). split.
    + apply (match_year_yy _ [a; b]); [by rewrite Hgd|by rewrite Hgd|done|].
      by apply to_int_two_digits.
    + apply decimal_range in Ha, Hb. lia.
Qed.

Lemma date_match_bounds (text : str) (m : match_obj) :
  m ∈ date_matches text →
  (m_start m < length text)%nat ∧ (m_end m ≤ length text)%nat.
Proof.
  unfold date_matches. intros (p & _ & Hm%list_elem_of_In)%list_elem_of_In%in_flat_map.
  apply scan_bounds in Hm. simpl in Hm. lia.
Qed.

(** A date kept from a match is a date of the calendar in the years 2000 to
    2099, and the place kept with it is a place of the text. *)
Lemma validated_in_century (text : str) (m : match_obj) (D : date) (i : nat) :
  m ∈ date_matches text → (D, i) ∈ validated m →
  2000 ≤ year D ≤ 2099
  ∧ valid_date (year D) (month D) (day D) = true
  ∧ (i < length text)%nat.
Proof.
  intros Hm Hc.
  destruct (date_match_year text m Hm) as (y & Hy & Hrange).
  destruct (date_match_bounds text m Hm) as [Hstart _].
  destruct (validated_valid m (D, i) Hc) as [Hv Hi]. simpl in Hv, Hi.
  split; [|split; [done|by rewrite Hi]].
  revert Hc. unfold validated, match_numbers. rewrite Hy.
  destruct (_to_int (dict_get (groupdict m) "m") None) as [M|];
    [|by intros ?%elem_of_nil].
  destruct (_to_int (dict_get (groupdict m) "d") None) as [d|];
    [|by intros ?%elem_of_nil].
  destruct (valid_date y M d); [|by intros ?%elem_of_nil].
  by intros [= -> _]%list_elem_of_singleton.
Qed.

(** X6. [_collect_dates] raises nothing, and each pair of its list has a
    date of the calendar in the years 2000 to 2099 and an offset that lies
    inside the text. *)
Theorem collected_dates_in_century (text : str) :
  ∃ dates, _collect_dates text = Ok dates
    ∧ ∀ D i, (D, i) ∈ dates →
        2000 ≤ year D ≤ 2099
        ∧ valid_date (year D) (month D) (day D) = true
        ∧ (i < length text)%nat.
Proof.
  eexists. split; [apply collect_dates_validated|].
  intros D i (m & Hm%list_elem_of_In & Hc%list_elem_of_In)%list_elem_of_In%in_flat_map.
  by apply (validated_in_century text m).
Qed.

End Spans.

Section IsoDates.

Lemma decimal_digit_char (k : Z) :
  0 ≤ k ≤ 9 → decimal (digit_char k) = Some k.
Proof.
  intros Hk. unfold decimal, Nd_ranges, digit_char. cbn [decimal_in].
  destruct (_ && _) eqn:E.
  - f_equal. replace (48 + k - 48) with k by lia. apply Z.mod_small. lia.
  - apply andb_false_iff in E as [E|E]; lia.
Qed.

Lemma is_digit_digit_char (k : Z) : 0 ≤ k ≤ 9 → is_digit (digit_char k) = true.
Proof. intros Hk. unfold is_digit. by rewrite decimal_digit_char. Qed.

Lemma is_space_digit_char (k : Z) : 0 ≤ k ≤ 9 → is_space (digit_char k) = false.
Proof. intros Hk. unfold is_space, digit_char. lia. Qed.

(** *** Reading a text that the pattern matches at the first try *)

Lemma run_cat_first {R : Type} ic r1 r2 s pos g (k : str → nat → caps → option R) x :
  run ic r1 s pos g (fun s' pos' g' => run ic r2 s' pos' g' k) = Some x →
  run ic (Cat r1 r2) s pos g k = Some x.
Proof. done. Qed.

Lemma run_grp_first {R : Type} ic name r1 s pos g
    (k : str → nat → caps → option R) x :
  run ic r1 s pos g (fun s' pos' g' => k s' pos' ((name, (pos, pos')) :: g'))
  = Some x →
  run ic (Grp name r1) s pos g k = Some x.
Proof. done. Qed.

Lemma run_eps_first {R : Type} ic s pos g (k : str → nat → caps → option R) x :
  k s pos g = Some x → run ic Eps s pos g k = Some x.
Proof. done. Qed.

Lemma run_lit_first {R : Type} ic c ch s pos g
    (k : str → nat → caps → option R) x :
  lit_match ic c ch = true → k s (S pos) g = Some x →
  run ic (Lit c) (ch :: s) pos g k = Some x.
Proof. simpl. by intros ->. Qed.

Lemma run_cls_first {R : Type} ic p ch s pos g
    (k : str → nat → caps → option R) x :
  p ch = true → k s (S pos) g = Some x →
  run ic (Cls p) (ch :: s) pos g k = Some x.
Proof. simpl. by intros ->. Qed.

(** A repetition that takes [w], cannot take more, and after which the rest
    of the pattern succeeds. *)
Lemma rep_first {R : Type} (p : char → bool) (w s' : str) :
  ∀ lo hi pos (k : str → nat → option R) x,
  Forall (fun c => p c = true) w →
  (lo ≤ length w)%nat →
  (∀ n, hi = Some n → (length w ≤ n)%nat) →
  (hi = Some (length w) ∨ s' = [] ∨ ∃ c t, s' = c :: t ∧ p c = false) →
  k s' (pos + length w)%nat = Some x →
  rep p lo hi (w ++ s') pos k = Some x.
Proof.
  induction w as [|c w IH]; intros lo hi pos k x Hw Hlo Hhi Hstop Hk.
  - simpl in *. rewrite Nat.add_0_r in Hk.
    assert (lo = 0%nat) as -> by lia.
    destruct s' as [|c t]; [done|]. simpl.
    destruct Hstop as [->|[?|(c' & t' & [= <- <-] & Hc)]]; [| done |].
    + by rewrite andb_false_r.
    + by rewrite Hc.
  - apply Forall_cons in Hw as [Hc Hw]. simpl.
    assert (below hi = true) as ->.
    { destruct hi as [[|n]|]; try done. specialize (Hhi 0%nat eq_refl).
      simpl in Hhi. lia. }
    rewrite Hc. simpl.
    rewrite (IH (pred lo) (dec hi) (S pos) k x); try done.
    + simpl in Hlo. lia.
    + intros n Hn. destruct hi as [m|]; [|done]. injection Hn as <-.
      specialize (Hhi m eq_refl). simpl in Hhi. lia.
    + destruct Hstop as [->|Hstop]; [by left|by right].
    + simpl in Hk. by replace (S pos + length w)%nat with (pos + S (length w))%nat by lia.
Qed.

Lemma run_rep_first {R : Type} ic (p : char → bool) (w s' : str) lo hi pos g
    (k : str → nat → caps → option R) x :
  Forall (fun c => p c = true) w →
  (lo ≤ length w)%nat →
  (∀ n, hi = Some n → (length w ≤ n)%nat) →
  (hi = Some (length w) ∨ s' = [] ∨ ∃ c t, s' = c :: t ∧ p c = false) →
  k s' (pos + length w)%nat g = Some x →
  run ic (Rep lo hi p) (w ++ s') pos g k = Some x.
Proof. intros. simpl. by apply rep_first. Qed.

Ltac digit_facts :=
  first [ apply is_digit_digit_char; lia
        | apply is_space_digit_char; lia
        | vm_compute; reflexivity ].

Ltac class_side :=
  match goal with
  | |- Forall _ _ => repeat constructor; digit_facts
  | |- (_ ≤ _)%nat => simpl; lia
  | |- ∀ n, _ = Some n → _ => intros ? [= <-]; simpl; lia
  | |- ∀ n, None = Some n → _ => by intros ?
  | |- _ ∨ _ =>
    first [ left; reflexivity
          | right; left; reflexivity
          | right; right; do 2 eexists; split; [reflexivity|digit_facts] ]
  end.

Lemma ymd_match_iso (a b c d e f : Z) :
  0 ≤ a ≤ 9 → 0 ≤ b ≤ 9 → 0 ≤ c ≤ 9 → 0 ≤ d ≤ 9 → 0 ≤ e ≤ 9 → 0 ≤ f ≤ 9 →
  match_at DATE_YMD
    [50; 48; digit_char a; digit_char b; 45; digit_char c; digit_char d; 45;
     digit_char e; digit_char f]
  = Some (10%nat, [("d", (8, 10)); ("m", (5, 7)); ("y", (0, 4))]%nat).
Proof.
  intros Ha Hb Hc Hd He Hf. unfold match_at. rewrite ast_DATE_YMD.
  change (ignorecase DATE_YMD) with false.
  (* y *)
  apply run_cat_first, run_grp_first, run_cat_first, run_cat_first.
  apply run_lit_first; [done|]. cbv beta.
  apply run_cat_first, run_lit_first; [done|]. cbv beta.
  apply run_eps_first. cbv beta.
  apply run_cat_first.
  apply (run_rep_first _ _ [digit_char a; digit_char b]); try class_side.
  cbv beta. apply run_eps_first. cbv beta.
  (* separator *)
  apply run_cat_first. apply (run_rep_first _ _ []); try class_side. cbv beta.
  apply run_cat_first, run_cls_first; [vm_compute; reflexivity|]. cbv beta.
  apply run_cat_first. apply (run_rep_first _ _ []); try class_side. cbv beta.
  (* m *)
  apply run_cat_first, run_grp_first.
  apply (run_rep_first _ _ [digit_char c; digit_char d]); try class_side.
  cbv beta.
  apply run_cat_first. apply (run_rep_first _ _ []); try class_side. cbv beta.
  apply run_cat_first, run_cls_first; [vm_compute; reflexivity|]. cbv beta.
  apply run_cat_first. apply (run_rep_first _ _ []); try class_side. cbv beta.
  (* d *)
  apply run_cat_first, run_grp_first.
  apply (run_rep_first _ _ [digit_char e; digit_char f] []); try class_side.
  cbv beta. apply run_eps_first. cbv beta. reflexivity.
Qed.

(** A match of the second pattern reads 月, one of the third reads 年. *)
Lemma mdy_reads_month_sign (s : str) (len : nat) (g : caps) :
  match_at DATE_MDY s = Some (len, g) → 26376 ∈ s.
Proof.
  intros Hm. apply match_at_sound in Hm as [rest Hm]. rewrite ast_DATE_MDY in Hm.
  apply consumes_cat_inv in Hm as (s2 & p2 & g2 & (w1 & -> & _)%consumes_span & Hm).
  apply consumes_cat_inv in Hm as (s3 & p3 & g3 & (w2 & -> & _)%consumes_span & Hm).
  apply consumes_cat_inv in Hm as (s4 & p4 & g4 & Hl & _).
  simpl in Hl. destruct Hl as (? & ? & ? & (ch & -> & _ & Hch & _) & _).
  apply Z.eqb_eq in Hch as ->.
  rewrite !elem_of_app. right. right. left.
Qed.

Lemma yy_reads_year_sign (s : str) (len : nat) (g : caps) :
  match_at DATE_YY s = Some (len, g) → 24180 ∈ s.
Proof.
  intros Hm. apply match_at_sound in Hm as [rest Hm]. rewrite ast_DATE_YY in Hm.
  apply consumes_cat_inv in Hm as (s2 & p2 & g2 & (w1 & -> & _)%consumes_span & Hm).
  apply consumes_cat_inv in Hm as (s3 & p3 & g3 & (w2 & -> & _)%consumes_span & Hm).
  apply consumes_cat_inv in Hm as (s4 & p4 & g4 & Hl & _).
  simpl in Hl. destruct Hl as (? & ? & ? & (ch & -> & _ & Hch & _) & _).
  apply Z.eqb_eq in Hch as ->.
  rewrite !elem_of_app. right. right. left.
Qed.

Lemma finditer_without (p : pattern) (c : char) (text : str) :
  (∀ s len g, match_at p s = Some (len, g) → c ∈ s) →
  c ∉ text → finditer p text = [].
Proof.
  intros Hneeds Hc. unfold finditer.
  destruct (scan p text 0 0) as [|m ms] eqn:E; [done|].
  assert (m ∈ scan p text 0 0) as Hm by (rewrite E; left).
  apply scan_sound in Hm as (s1 & len & g & Hm & [pre ->] & _).
  exfalso. apply Hc, elem_of_app. right. by eapply Hneeds.
Qed.

Lemma iso_ascii (a b c d e f : Z) (x : char) :
  0 ≤ a ≤ 9 → 0 ≤ b ≤ 9 → 0 ≤ c ≤ 9 → 0 ≤ d ≤ 9 → 0 ≤ e ≤ 9 → 0 ≤ f ≤ 9 →
  x ∈ iso a b c d e f → x < 128.
Proof.
  intros Ha Hb Hc Hd He Hf Hx. unfold iso, digit_char in Hx.
  repeat (apply elem_of_cons in Hx as [->|Hx]; [lia|]).
  by apply elem_of_nil in Hx.
Qed.

Lemma collect_dates_iso (a b c d e f : Z) :
  0 ≤ a ≤ 9 → 0 ≤ b ≤ 9 → 0 ≤ c ≤ 9 → 0 ≤ d ≤ 9 → 0 ≤ e ≤ 9 → 0 ≤ f ≤ 9 →
  valid_date (2000 + (10 * a + b)) (10 * c + d) (10 * e + f) = true →
  _collect_dates (iso a b c d e f)
  = Ok [(mkdate (2000 + (10 * a + b)) (10 * c + d) (10 * e + f), 0%nat)].
Proof.
  intros Ha Hb Hc Hd He Hf Hv. rewrite collect_dates_validated.
  unfold date_matches, DATE_REGEXES. cbn [flat_map].
  rewrite (finditer_without DATE_MDY 26376), (finditer_without DATE_YY 24180).
  2: apply yy_reads_year_sign.
  2: { intros Hx. apply (iso_ascii a b c d e f) in Hx; lia. }
  2: apply mdy_reads_month_sign.
  2: { intros Hx. apply (iso_ascii a b c d e f) in Hx; lia. }
  unfold finditer, iso.
  rewrite (scan_match _ _ _ _ _ _ (ymd_match_iso a b c d e f Ha Hb Hc Hd He Hf)).
  cbn [pred].
  rewrite (scan_skip DATE_YMD
             [48; digit_char a; digit_char b; 45; digit_char c; digit_char d;
              45; digit_char e; digit_char f] []).
  cbn [scan app flat_map]. rewrite !app_nil_r.
  apply f_equal. apply validated_of_valid; [|done].
  unfold match_numbers. cbn [groupdict].
  match goal with
  | |- context [groupdict_of ?r ?s ?g] =>
    change (groupdict_of r s g)
      with (<["y" := Some [50; 48; digit_char a; digit_char b]]>
              (<["m" := Some [digit_char c; digit_char d]]>
                 (<["d" := Some [digit_char e; digit_char f]]>
                    (∅ : gmap string (option str)))))
  end.
  rewrite (match_year_y _ [50; 48; digit_char a; digit_char b]) by done.
  rewrite (to_int_year4 _ _ a b) by by apply decimal_digit_char.
  unfold dict_get.
  rewrite lookup_insert_ne, lookup_insert_eq by done. simpl.
  rewrite (to_int_two_digits _ _ c d) by by apply decimal_digit_char.
  rewrite !lookup_insert_ne, lookup_insert_eq by done. simpl.
  by rewrite (to_int_two_digits _ _ e f) by by apply decimal_digit_char.
Qed.

Lemma numeral_2 (x : Z) :
  numeral 2 x = [digit_char (x / 10 mod 10); digit_char (x mod 10)].
Proof. reflexivity. Qed.

Lemma numeral_4 (x : Z) :
  numeral 4 x
  = [digit_char (x / 10 / 10 / 10 mod 10); digit_char (x / 10 / 10 mod 10);
     digit_char (x / 10 mod 10); digit_char (x mod 10)].
Proof. reflexivity. Qed.

(** The text of a date of this century is an ISO date. *)
Lemma strftime_iso (D : date) :
  2000 ≤ year D ≤ 2099 →
  strftime_ymd D
  = iso (year D / 10 mod 10) (year D mod 10) (month D / 10 mod 10)
      (month D mod 10) (day D / 10 mod 10) (day D mod 10).
Proof.
  intros Hy. unfold strftime_ymd, iso. rewrite numeral_4, !numeral_2.
  assert (year D / 10 / 10 / 10 mod 10 = 2) as ->
    by (Z.to_euclidean_division_equations; lia).
  assert (year D / 10 / 10 mod 10 = 0) as ->
    by (Z.to_euclidean_division_equations; lia).
  reflexivity.
Qed.

Lemma valid_date_bounds (y M d : Z) :
  valid_date y M d = true → 1 ≤ M ≤ 12 ∧ 1 ≤ d ≤ 31.
Proof.
  unfold valid_date. intros Hv. repeat (apply andb_prop in Hv as [Hv ?]).
  assert (days_in_month y M ≤ 31).
  { unfold days_in_month. repeat destruct (_ =? _); try destruct (is_leap _);
      simpl; lia. }
  lia.
Qed.

(** The text of a date of this century has this date and no other. *)
Lemma collect_dates_strftime (D : date) :
  valid_date (year D) (month D) (day D) = true →
  2000 ≤ year D ≤ 2099 →
  _collect_dates (strftime_ymd D) = Ok [(D, 0%nat)].
Proof.
  intros Hv Hy.
  destruct (valid_date_bounds _ _ _ Hv) as [Hm Hd].
  rewrite (strftime_iso D Hy).
  assert (2000 + (10 * (year D / 10 mod 10) + year D mod 10) = year D) as Ey
    by (Z.to_euclidean_division_equations; lia).
  assert (10 * (month D / 10 mod 10) + month D mod 10 = month D) as Em
    by (Z.to_euclidean_division_equations; lia).
  assert (10 * (day D / 10 mod 10) + day D mod 10 = day D) as Ed
    by (Z.to_euclidean_division_equations; lia).
  rewrite collect_dates_iso.
  - rewrite Ey, Em, Ed. by destruct D.
  - Z.to_euclidean_division_equations; lia.
  - Z.to_euclidean_division_equations; lia.
  - Z.to_euclidean_division_equations; lia.
  - Z.to_euclidean_division_equations; lia.
  - Z.to_euclidean_division_equations; lia.
  - Z.to_euclidean_division_equations; lia.
  - by rewrite Ey, Em, Ed.
Qed.

Lemma Ok_inj {A : Type} (a b : A) : Ok a = Ok b → a = b.
Proof. congruence. Qed.

(** The date behind an event date. *)
Lemma event_date_origin (text s : str) :
  parse_datetime text = Ok {[ "event_date" := Some s ]} →
  ∃ D, s = strftime_ymd D
    ∧ valid_date (year D) (month D) (day D) = true
    ∧ 2000 ≤ year D ≤ 2099.
Proof.
  rewrite parse_datetime_validated. intros H%Ok_inj.
  apply (f_equal (fun m : gmap string (option str) => m !! "event_date")) in H.
  rewrite !lookup_singleton_eq in H. apply (inj Some) in H.
  destruct (max_default _) as [D|] eqn:HD; [|done]. simpl in H.
  apply (inj Some) in H. subst s.
  assert ((flat_map validated (date_matches text)).*1 ≠ []) as Hne.
  { intros E. by rewrite E in HD. }
  destruct (max_default_spec _ Hne) as (D' & HD' & Hin & _).
  rewrite HD in HD'. apply (inj Some) in HD'. subst D'.
  apply list_elem_of_fmap in Hin as ([D' i] & -> & Hin). simpl.
  apply list_elem_of_In, in_flat_map in Hin as (m & Hm%list_elem_of_In & Hc%list_elem_of_In).
  destruct (validated_in_century text m D' i Hm Hc) as (Hy & Hv & _).
  by exists D'.
Qed.

(** X7. The text that [strftime] writes for a date of the calendar in the
    years 2000 to 2099 is read back as this date alone, at offset 0, and its
    event date is the text itself. *)
Theorem strftime_reparsed (D : date) :
  valid_date (year D) (month D) (day D) = true →
  2000 ≤ year D ≤ 2099 →
  _collect_dates (strftime_ymd D) = Ok [(D, 0%nat)]
  ∧ parse_datetime (strftime_ymd D)
    = Ok {[ "event_date" := Some (strftime_ymd D) ]}.
Proof.
  intros Hv Hy. pose proof (collect_dates_strftime D Hv Hy) as Hc.
  split; [done|]. unfold parse_datetime. by rewrite Hc.
Qed.

Lemma strftime_reparsed_witness :
  _collect_dates (u "2025-08-10") = Ok [(mkdate 2025 8 10, 0%nat)]
  ∧ parse_datetime (u "2025-08-10")
    = Ok {[ "event_date" := Some (u "2025-08-10") ]}.
Proof.
  apply (strftime_reparsed (mkdate 2025 8 10)).
  - reflexivity.
  - simpl. lia.
Defined.

(** X8. [parse_datetime] applied to the event date it has found finds the
    same event date. *)
Theorem parse_datetime_idempotent (text s : str) :
  parse_datetime text = Ok {[ "event_date" := Some s ]} →
  parse_datetime s = Ok {[ "event_date" := Some s ]}.
Proof.
  intros (D & -> & Hv & Hy)%event_date_origin.
  unfold parse_datetime. by rewrite (collect_dates_strftime D Hv Hy).
Qed.

Lemma parse_datetime_idempotent_witness :
  parse_datetime (u "2025-08-10") = Ok {[ "event_date" := Some (u "2025-08-10") ]}.
Proof.
  apply (parse_datetime_idempotent (u "発売 2024年12月1日 公演 2025年8月10日")).
  vm_compute. reflexivity.
Defined.

(** X9. An event date has ten characters: 20, two digits, a hyphen, two
    digits, a hyphen, two digits; the month is 01 to 12 and the day 01 to
    31. *)
Theorem event_date_shape (text s : str) :
  parse_datetime text = Ok {[ "event_date" := Some s ]} →
  ∃ a b c d e f : Z,
    s = iso a b c d e f
    ∧ 0 ≤ a ≤ 9 ∧ 0 ≤ b ≤ 9 ∧ 0 ≤ c ≤ 9 ∧ 0 ≤ d ≤ 9 ∧ 0 ≤ e ≤ 9 ∧ 0 ≤ f ≤ 9
    ∧ 1 ≤ 10 * c + d ≤ 12 ∧ 1 ≤ 10 * e + f ≤ 31.
Proof.
  intros (D & -> & Hv & Hy)%event_date_origin.
  destruct (valid_date_bounds _ _ _ Hv) as [Hm Hd].
  exists (year D / 10 mod 10), (year D mod 10), (month D / 10 mod 10),
    (month D mod 10), (day D / 10 mod 10), (day D mod 10).
  split; [by apply strftime_iso|].
  repeat split; Z.to_euclidean_division_equations; lia.
Qed.

Lemma event_date_shape_witness :
  ∃ a b c d e f : Z,
    u "2025-08-10" = iso a b c d e f
    ∧ 0 ≤ a ≤ 9 ∧ 0 ≤ b ≤ 9 ∧ 0 ≤ c ≤ 9 ∧ 0 ≤ d ≤ 9 ∧ 0 ≤ e ≤ 9 ∧ 0 ≤ f ≤ 9
    ∧ 1 ≤ 10 * c + d ≤ 12 ∧ 1 ≤ 10 * e + f ≤ 31.
Proof.
  apply (event_date_shape (u "25年8月10日")).
  vm_compute. reflexivity.
Defined.

End IsoDates.

(** ** The language hints *)

Section Hints.

Lemma lstrip_elem (c : char) (s : str) : c ∈ lstrip s → c ∈ s.
Proof.
  intros Hc. destruct (lstrip_suffix s) as [w Hw]. rewrite Hw.
  apply elem_of_app. by right.
Qed.

Lemma strip_elem (c : char) (s : str) : c ∈ strip s → c ∈ s.
Proof.
  unfold strip, rstrip. intros Hc%list_elem_of_In%in_rev%list_elem_of_In.
  apply lstrip_elem in Hc. apply list_elem_of_In, in_rev in Hc.
  by apply lstrip_elem, list_elem_of_In.
Qed.

Lemma lstrip_id (s : str) : starts_with_space s = false → lstrip s = s.
Proof. destruct s as [|c s]; [done|]. simpl. by intros ->. Qed.

(** Trimming a trimmed text changes nothing. *)
Lemma strip_id (s : str) : trimmed s = true → strip s = s.
Proof.
  unfold trimmed, strip, rstrip. intros [H1 H2]%andb_prop.
  apply negb_true_iff in H1, H2.
  rewrite (lstrip_id s H1), (lstrip_id (rev s) H2). apply rev_involutive.
Qed.

Lemma split_from_no_sep (sep : char) (s : str) :
  ∀ cur x, sep ∉ cur → x ∈ split_from sep cur s → sep ∉ x.
Proof.
  induction s as [|c s IH]; intros cur x Hcur; simpl.
  - intros ->%list_elem_of_singleton. by rewrite list_elem_of_In, <- in_rev, <- list_elem_of_In.
  - destruct (Z.eqb_spec c sep) as [->|Hne].
    + intros [->|Hx]%elem_of_cons.
      * by rewrite list_elem_of_In, <- in_rev, <- list_elem_of_In.
      * apply (IH [] x); [apply not_elem_of_nil|done].
    + apply IH. apply not_elem_of_cons. split; [done|done].
Qed.

Lemma split_from_app (sep : char) (h rest : str) :
  sep ∉ h →
  ∀ cur, split_from sep cur (h ++ rest) = split_from sep (rev h ++ cur) rest.
Proof.
  induction h as [|c h IH]; intros Hh cur; [done|].
  apply not_elem_of_cons in Hh as [Hc Hh]. simpl.
  destruct (Z.eqb_spec c sep) as [->|_]; [done|].
  rewrite (IH Hh). by rewrite <- app_assoc.
Qed.

Lemma split_join (sep : char) (hs : list str) :
  hs ≠ [] → Forall (fun h => sep ∉ h) hs →
  split sep (join [sep] hs) = hs.
Proof.
  unfold split. induction hs as [|h hs IH]; [done|]. intros _ Hall.
  apply Forall_cons in Hall as [Hh Hall].
  destruct hs as [|h2 hs].
  - simpl. rewrite <- (app_nil_r h) at 1.
    rewrite (split_from_app sep h [] Hh). simpl.
    by rewrite app_nil_r, rev_involutive.
  - change (join [sep] (h :: h2 :: hs))
      with (h ++ [sep] ++ join [sep] (h2 :: hs)).
    rewrite (split_from_app sep h _ Hh). simpl. rewrite Z.eqb_refl.
    rewrite app_nil_r, rev_involutive. f_equal. by apply IH.
Qed.

(** X10. Each language hint is a piece of the text between commas,
    trimmed: it is not empty, has no white space at either end and no
    comma. *)
Theorem language_hints_clean (lang_str h : str) :
  h ∈ language_hints lang_str → clean_hint h.
Proof.
  unfold language_hints. intros (raw & -> & Hraw)%list_elem_of_fmap.
  apply list_elem_of_In, filter_In in Hraw as [Hin Hne].
  split; [by destruct (strip raw)|]. split; [apply strip_trimmed|].
  intros Hc%strip_elem. revert Hc.
  apply (split_from_no_sep 0x2C lang_str [] raw); [apply not_elem_of_nil|].
  by apply list_elem_of_In.
Qed.

(** X11. Hints of this kind joined by commas are split into the same
    hints. *)
Theorem language_hints_join (hs : list str) :
  Forall clean_hint hs → language_hints (join [0x2C] hs) = hs.
Proof.
  intros Hall. destruct hs as [|h hs]; [done|].
  unfold language_hints. rewrite split_join; [|done|].
  2: { eapply Forall_impl; [exact Hall|]. by intros x (_ & _ & Hx). }
  induction Hall as [|x xs (Hne & Htrim & _) Hall IH]; [done|].
  cbn [List.filter]. rewrite (strip_id x Htrim).
  destruct x as [|c x]; [done|]. cbn [truthy_str fmap list_fmap].
  rewrite (strip_id (c :: x) Htrim). f_equal. apply IH.
Qed.

Lemma language_hints_clean_witness : clean_hint (u "zh-Hant").
Proof.
  apply (language_hints_clean (u "ja, zh-Hant ,,en") (u "zh-Hant")).
  apply (bool_decide_unpack _). vm_compute. exact I.
Defined.

Lemma language_hints_join_witness :
  language_hints (join [0x2C] [u "ja"; u "en"]) = [u "ja"; u "en"].
Proof.
  apply (language_hints_join [u "ja"; u "en"]).
  repeat apply Forall_cons_2; [..|apply Forall_nil_2].
  - split; [by vm_compute|]. split; [vm_compute; reflexivity|].
    apply (bool_decide_unpack _). vm_compute. exact I.
  - split; [by vm_compute|]. split; [vm_compute; reflexivity|].
    apply (bool_decide_unpack _). vm_compute. exact I.
Defined.

End Hints.

(** ** Single lines, and reading numbers *)

Section SingleLine.

Lemma linebreak_is_space (c : char) : is_linebreak c = true → is_space c = true.
Proof. unfold is_linebreak, is_space. lia. Qed.

Lemma single_line_rev (s : str) : single_line s → single_line (rev s).
Proof.
  unfold single_line. rewrite !Forall_forall. intros H c Hc.
  apply H. by apply list_elem_of_In, in_rev, list_elem_of_In.
Qed.

Lemma splitlines_from_single (n : nat) :
  ∀ s cur ln, (length s ≤ n)%nat → single_line cur →
  ln ∈ splitlines_from cur s → single_line ln.
Proof.
  induction n as [|n IH]; intros s cur ln Hlen Hcur.
  - destruct s; [|simpl in Hlen; lia]. simpl.
    destruct cur; [by intros ?%elem_of_nil|].
    intros ->%list_elem_of_singleton. by apply single_line_rev.
  - destruct s as [|c s].
    { simpl. destruct cur; [by intros ?%elem_of_nil|].
      intros ->%list_elem_of_singleton. by apply single_line_rev. }
    simpl in Hlen. cbn [splitlines_from].
    destruct (is_linebreak c) eqn:Hc.
    + assert (∀ rest, (length rest ≤ n)%nat →
                ln ∈ rev cur :: splitlines_from [] rest → single_line ln) as Hstep.
      { intros rest Hrest [->|Hin]%elem_of_cons; [by apply single_line_rev|].
        apply (IH rest []); [done|constructor|done]. }
      destruct s as [|c' s'].
      * apply Hstep. simpl. lia.
      * destruct ((c =? 13) && (c' =? 10)); apply Hstep; simpl in *; lia.
    + apply IH; [lia|]. by constructor.
Qed.

Lemma splitlines_single (text ln : str) :
  ln ∈ splitlines text → single_line ln.
Proof. apply (splitlines_from_single (length text)); [lia|constructor]. Qed.

Lemma title_lines_single (text ln : str) :
  ln ∈ title_lines text → single_line ln.
Proof.
  unfold title_lines. intros (raw & -> & Hraw)%list_elem_of_fmap.
  apply list_elem_of_In, filter_In in Hraw as [Hraw%list_elem_of_In _].
  apply splitlines_single in Hraw. unfold single_line in *.
  rewrite Forall_forall in *. intros c Hc%strip_elem. by apply Hraw.
Qed.

Lemma collapsed_single (t : str) : runs_collapsed t = true → single_line t.
Proof.
  induction t as [|c t IH]; [constructor|]. simpl.
  intros [Hc Ht]%andb_prop. constructor; [|by apply IH].
  destruct (is_linebreak c) eqn:Hlb; [|done].
  rewrite (linebreak_is_space c Hlb) in Hc.
  apply andb_prop in Hc as [->%Z.eqb_eq _]. done.
Qed.

(** X12. A title has no line boundary in it. *)
Theorem parse_title_single_line (text t : str) :
  parse_title text = Some t → single_line t.
Proof.
  intros Ht. destruct (find_start (title_lines text)) as [start|] eqn:Hs.
  - rewrite (parse_title_anchor text start Hs) in Ht.
    apply joined_shape in Ht as (_ & _ & Hruns). by apply collapsed_single.
  - rewrite (parse_title_fallback text Hs) in Ht.
    destruct (list_find _ _) as [[i ln]|] eqn:Hfind; [|done].
    simpl in Ht. injection Ht as ->.
    apply list_find_Some in Hfind as (Hi & _).
    apply list_elem_of_lookup_2 in Hi. by apply (title_lines_single text).
Qed.

Lemma parse_title_single_line_witness : single_line (u "WORLD TOUR LIVE").
Proof.
  apply (parse_title_single_line (u "WORLD TOUR
LIVE
主催 X")).
  vm_compute. reflexivity.
Defined.

End SingleLine.

Section ToInt.

Lemma decimal_value_app (a b : str) :
  ∀ acc, decimal_value acc (a ++ b)
         = match decimal_value acc a with
           | Some v => decimal_value v b
           | None => None
           end.
Proof.
  induction a as [|c a IH]; intros acc; simpl; [done|].
  destruct (decimal c); [apply IH|done].
Qed.

Lemma decimal_value_numeral (w : nat) :
  ∀ x acc, 0 ≤ x →
  decimal_value acc (numeral w x) = Some (acc * 10 ^ Z.of_nat w + x mod 10 ^ Z.of_nat w).
Proof.
  induction w as [|w IH]; intros x acc Hx.
  - simpl. f_equal. rewrite Z.mod_1_r. lia.
  - cbn [numeral]. rewrite decimal_value_app, IH by (apply Z.div_pos; lia).
    cbn [decimal_value].
    rewrite decimal_digit_char by (pose proof (Z.mod_pos_bound x 10); lia).
    f_equal. rewrite Nat2Z.inj_succ, Z.pow_succ_r by lia.
    assert (0 < 10 ^ Z.of_nat w) by (apply Z.pow_pos_nonneg; lia).
    rewrite Z.rem_mul_r by lia. lia.
Qed.

Lemma decimal_value_bound (s : str) :
  ∀ acc n, 0 ≤ acc → decimal_value acc s = Some n →
  acc * 10 ^ Z.of_nat (length s) ≤ n < (acc + 1) * 10 ^ Z.of_nat (length s).
Proof.
  induction s as [|c s IH]; intros acc n Hacc; simpl decimal_value.
  - intros [= <-]. simpl. lia.
  - destruct (decimal c) as [d|] eqn:Hc; [|done].
    intros Hn. apply decimal_range in Hc as Hd.
    apply IH in Hn; [|lia]. rewrite length_cons, Nat2Z.inj_succ, Z.pow_succ_r by lia.
    assert (0 < 10 ^ Z.of_nat (length s)) by (apply Z.pow_pos_nonneg; lia).
    nia.
Qed.

Lemma decimal_value_some (s : str) :
  Forall (fun c => is_digit c = true) s → ∀ acc, is_Some (decimal_value acc s).
Proof.
  induction 1 as [|c s Hc _ IH]; intros acc; simpl; [done|].
  apply decimal_of_digit in Hc as [d ->]. apply IH.
Qed.

Lemma numeral_digits (w : nat) :
  ∀ x, Forall (fun c => is_digit c = true) (numeral w x).
Proof.
  induction w as [|w IH]; intros x; cbn [numeral]; [constructor|].
  apply Forall_app. split; [apply IH|]. constructor; [|constructor].
  apply is_digit_digit_char. pose proof (Z.mod_pos_bound x 10). lia.
Qed.

Lemma numeral_length (w : nat) : ∀ x, length (numeral w x) = w.
Proof.
  induction w as [|w IH]; intros x; cbn [numeral]; [done|].
  rewrite length_app, IH. simpl. lia.
Qed.

(** X13. [_to_int] reads back the numerals that [strftime] writes: a number
    written on [w] digits, with its leading zeros, is read as this number
    whatever the default, as long as the digits are not more than [int]
    reads; beyond this limit the default is returned. *)
Theorem to_int_numeral (w : nat) (x : Z) (default : option Z) :
  (0 < w)%nat → 0 ≤ x < 10 ^ Z.of_nat w →
  _to_int (Some (numeral w x)) default
  = if Z.of_nat w <=? INT_MAX_STR_DIGITS then Some x else default.
Proof.
  intros Hw Hx. unfold _to_int, int_of.
  rewrite int_literal_digits; [| |apply numeral_digits].
  2: { intros E. apply (f_equal length) in E. rewrite numeral_length in E.
       simpl in E. lia. }
  rewrite numeral_length.
  destruct (Z.leb_spec (Z.of_nat w) INT_MAX_STR_DIGITS) as [Hle|Hgt].
  - assert ((INT_MAX_STR_DIGITS <? Z.of_nat w) = false) as -> by lia.
    rewrite decimal_value_numeral by lia.
    rewrite Z.mod_small by lia. f_equal; lia.
  - by assert ((INT_MAX_STR_DIGITS <? Z.of_nat w) = true) as -> by lia.
Qed.

(** X14. For a text of decimal digits, of ASCII or not, that is not empty
    and not longer than [int] reads, [_to_int] returns the value of the
    digits in base ten, whatever the default; it is not below zero and is
    below ten to the power of the length. *)
Theorem to_int_value (s : str) (default : option Z) :
  s ≠ [] → Forall (fun c => is_digit c = true) s →
  Z.of_nat (length s) ≤ INT_MAX_STR_DIGITS →
  ∃ n, decimal_value 0 s = Some n
    ∧ 0 ≤ n < 10 ^ Z.of_nat (length s)
    ∧ _to_int (Some s) default = Some n.
Proof.
  intros Hne Hall Hlen.
  destruct (decimal_value_some s Hall 0) as [n Hn].
  exists n. split; [done|]. split.
  - apply decimal_value_bound in Hn; lia.
  - by apply to_int_digits.
Qed.

Lemma to_int_numeral_witness : _to_int (Some (numeral 2 8)) (Some 0) = Some 8.
Proof. apply (to_int_numeral 2 8 (Some 0)); [lia|simpl; lia]. Defined.

Lemma to_int_value_witness :
  ∃ n, decimal_value 0 (u "２５") = Some n
    ∧ 0 ≤ n < 10 ^ Z.of_nat (length (u "２５"))
    ∧ _to_int (Some (u "２５")) None = Some n.
Proof.
  apply (to_int_value (u "２５") None).
  - by vm_compute.
  - apply (bool_decide_unpack _). vm_compute. exact I.
  - vm_compute. discriminate.
Defined.

(** What [int] accepts besides digits, and what it refuses. *)
Example to_int_literals :
  _to_int (Some (u "-5")) None = Some (-5)
  ∧ _to_int (Some (u " +1_000 ")) None = Some 1000
  ∧ _to_int (Some (u "1__0")) (Some 7) = Some 7
  ∧ _to_int (Some (u "_1")) (Some 7) = Some 7
  ∧ _to_int (Some (u "+")) (Some 7) = Some 7
  ∧ _to_int (Some (u "")) (Some 7) = Some 7
  ∧ _to_int None (Some 7) = Some 7
  ∧ _to_int (Some (repeat 0x30 4300)) (Some 7) = Some 0
  ∧ _to_int (Some (repeat 0x30 4301)) (Some 7) = Some 7.
Proof. repeat split; vm_compute; reflexivity. Qed.

End ToInt.

(** ** The request handler *)

Section Handler.

Variable b64decode : str -> outcome bytes.
Variable USE_FAKE_TEXT : bool.
Variable load_fake_text : outcome str.
Variable OCR_LANGUAGE_HINTS : option str.
Variable run_vision_ocr : bytes -> list str -> outcome str.

Local Notation "'read_image'" := (read_image_bytes b64decode).
Local Notation "'obtain'" :=
  (obtain_text b64decode USE_FAKE_TEXT load_fake_text OCR_LANGUAGE_HINTS
     run_vision_ocr).
Local Notation "'handler'" :=
  (api_ocr b64decode USE_FAKE_TEXT load_fake_text OCR_LANGUAGE_HINTS
     run_vision_ocr).

Lemma split1_from_app (sep : char) (h p : str) :
  sep ∉ h →
  ∀ cur, split1_from sep cur (h ++ sep :: p) = [rev (rev h ++ cur); p].
Proof.
  induction h as [|c h IH]; intros Hh cur; simpl.
  - by rewrite Z.eqb_refl.
  - apply not_elem_of_cons in Hh as [Hc Hh].
    destruct (Z.eqb_spec c sep) as [->|_]; [done|].
    rewrite (IH Hh). by rewrite <- app_assoc.
Qed.

Lemma split1_from_item (sep : char) (s : str) :
  ∀ cur rest, split1_from sep cur s !! 1%nat = Some rest →
  ∃ h, s = h ++ sep :: rest ∧ sep ∉ h.
Proof.
  induction s as [|c s IH]; intros cur rest; simpl; [done|].
  destruct (Z.eqb_spec c sep) as [->|Hne].
  - intros [= ->]. exists []. split; [done|apply not_elem_of_nil].
  - intros (h & -> & Hh)%IH. exists (c :: h). split; [done|].
    apply not_elem_of_cons. by split.
Qed.

Lemma str_in_sep (sep : char) (h p : str) : str_in [sep] (h ++ sep :: p) = true.
Proof.
  induction h as [|c h IH]; simpl.
  - by rewrite Z.eqb_refl.
  - rewrite IH. apply orb_true_r.
Qed.

(** What is looked up in the body when no file is uploaded. *)
Lemma read_image_get (req : request) :
  truthy (get_json req) = false ∨ (∃ d, get_json req = VDict d) →
  py_get (if truthy (get_json req) then get_json req else VDict [])
    (u "image_base64")
  = Return (default VNone (posted_base64 req)).
Proof.
  unfold posted_base64. intros [Hj|[d ->]].
  - rewrite Hj. by destruct (get_json req) as [| | | | | |[|]].
  - by destruct d.
Qed.

(** X15. With no uploaded file, and a body that is missing, empty or an
    object in which [image_base64] is missing, [None] or empty,
    [read_image_bytes] raises [ValueError] with the text
    [No image provided]. *)
Theorem read_image_bytes_missing (req : request) :
  files req !! "image" = None →
  truthy (get_json req) = false ∨ (∃ d, get_json req = VDict d) →
  truthy (default VNone (posted_base64 req)) = false →
  read_image req = Throw "ValueError" (Some NO_IMAGE).
Proof.
  intros Hf Hj Hv. unfold read_image_bytes. rewrite Hf.
  rewrite (read_image_get req Hj). cbn [mbind outcome_bind]. by rewrite Hv.
Qed.

(** X16. A data URI loses its header: with no uploaded file, a text that
    starts with [data:], white space apart, is cut at its first comma and
    what follows is decoded. *)
Theorem read_image_bytes_data_uri (req : request) (d : list (str * pyval))
    (h p : str) :
  files req !! "image" = None →
  get_json req = VDict d →
  assoc IMAGE_BASE64 d = Some (VStr (h ++ 0x2C :: p)) →
  0x2C ∉ h →
  startswith (u "data:") (strip (h ++ 0x2C :: p)) = true →
  read_image req = b64decode p.
Proof.
  unfold read_image_bytes. intros -> -> Hd Hh Hpre.
  assert (truthy (VDict d) = true) as -> by by destruct d.
  cbn [py_get mbind outcome_bind]. change (u "image_base64") with IMAGE_BASE64.
  rewrite Hd. cbn [default from_option id].
  assert (truthy (VStr (h ++ 0x2C :: p)) = true) as -> by by destruct h.
  cbn [negb py_in mbind outcome_bind]. change (u ",") with [0x2C].
  rewrite str_in_sep. cbn [py_strip mbind outcome_bind]. rewrite Hpre.
  cbv beta iota. unfold split1. rewrite (split1_from_app _ _ _ Hh). done.
Qed.

(** X17. A text without comma, or that does not start with [data:], is
    decoded as it is. *)
Theorem read_image_bytes_plain (req : request) (d : list (str * pyval))
    (s : str) :
  files req !! "image" = None →
  get_json req = VDict d →
  assoc IMAGE_BASE64 d = Some (VStr s) →
  s ≠ [] →
  str_in (u ",") s = false ∨ startswith (u "data:") (strip s) = false →
  read_image req = b64decode s.
Proof.
  unfold read_image_bytes. intros -> -> Hd Hs Hplain.
  assert (truthy (VDict d) = true) as -> by by destruct d.
  cbn [py_get mbind outcome_bind]. change (u "image_base64") with IMAGE_BASE64.
  rewrite Hd. cbn [default from_option id].
  assert (truthy (VStr s) = true) as -> by by destruct s.
  cbn [negb py_in mbind outcome_bind].
  destruct (str_in (u ",") s) eqn:Ec.
  - destruct Hplain as [|Hp]; [done|].
    cbn [py_strip mbind outcome_bind]. by rewrite Hp.
  - done.
Qed.

(** X18. The bytes that [read_image_bytes] returns are the uploaded file,
    or else, with no file, what the decoder gives for the text under
    [image_base64] or for an end of it; this text is not empty. *)
Theorem read_image_bytes_sources (req : request) (img : bytes) :
  read_image req = Return img →
  files req !! "image" = Some img ∨
  (files req !! "image" = None ∧
   ∃ s p, posted_base64 req = Some (VStr s) ∧ s ≠ [] ∧
     suffix p s ∧ b64decode p = Return img).
Proof.
  unfold read_image_bytes, posted_base64.
  destruct (files req !! "image") as [content|]; [intros [= ->]; by left|].
  intros H. right. split; [done|]. revert H.
  destruct (get_json req) as [|b|n|nz|s|l|d]; cbn [truthy]; try done.
  - by destruct b.
  - by destruct (n =? 0).
  - by destruct nz.
  - by destruct s.
  - by destruct l.
  - destruct d as [|kv d]; [done|].
    cbn [py_get mbind outcome_bind].
    change (u "image_base64") with IMAGE_BASE64.
    destruct (assoc IMAGE_BASE64 (kv :: d)) as [v|]; [|done].
    cbn [default from_option id].
    destruct (truthy v) eqn:Hv; [|done]. cbn [negb].
    destruct v as [|b|n|nz|s|l|d']; try done.
    + assert (s ≠ []) as Hs by by destruct s.
      cbn [py_in mbind outcome_bind py_strip].
      destruct (str_in (u ",") s); cbn [mbind outcome_bind].
      * destruct (startswith (u "data:") (strip s)).
        -- unfold item, split1.
           destruct (split1_from 0x2C [] s !! 1%nat) as [rest|] eqn:E;
             cbn [mbind outcome_bind]; [|done].
           apply split1_from_item in E as (h & -> & Hh).
           intros H. exists (h ++ 0x2C :: rest), rest.
           split; [done|]. split; [done|]. split; [|done].
           exists (h ++ [0x2C]). by rewrite <- app_assoc.
        -- intros H. by exists s, s.
      * intros H. by exists s, s.
    + cbn [py_in mbind outcome_bind py_strip].
      by destruct (existsb _ l).
    + cbn [py_in mbind outcome_bind py_strip].
      by destruct (assoc (u ",") d').
Qed.

(** The three parsers raise nothing. *)
Lemma fields_of_ok (raw_text : str) :
  fields_of raw_text
  = Ok (<["title" := parse_title raw_text]>
          (<["venue" := parse_venue raw_text]>
             {[ "event_date" := event_date raw_text ]})).
Proof.
  unfold fields_of, event_date, candidates.
  rewrite parse_datetime_validated, collect_dates_validated. done.
Qed.

Lemma fields_of_placeholder : fields_of NO_OCR_RESULT = Ok NO_FIELDS.
Proof. vm_compute. reflexivity. Qed.

(** X19. The answer of [api_ocr]: when a text is obtained, status 200 with
    this text and the three fields [event_date], [venue] and [title] that
    the parsers give for it, and no other field; when obtaining the text
    raises, status 400 with the text of the exception. Parsing adds no
    error of its own. *)
Theorem api_ocr_response (req : request) :
  match obtain req with
  | Return raw_text =>
    ∃ fields, handler req = (BodyOk raw_text fields, 200)
      ∧ fields !! "event_date" = Some (event_date raw_text)
      ∧ fields !! "venue" = Some (parse_venue raw_text)
      ∧ fields !! "title" = Some (parse_title raw_text)
      ∧ ∀ k, is_Some (fields !! k) → k ∈ ["event_date"; "venue"; "title"]
  | Throw _ msg => handler req = (BodyError msg, 400)
  end.
Proof.
  unfold api_ocr. destruct (obtain req) as [raw|cls msg]; [|done].
  cbn [mbind outcome_bind]. rewrite fields_of_ok. cbn [lift mbind outcome_bind].
  eexists. split; [done|]. split; [done|]. split; [done|]. split; [done|].
  intros k [v Hk].
  apply lookup_insert_Some in Hk as [[<- _]|[_ Hk]]; [set_solver|].
  apply lookup_insert_Some in Hk as [[<- _]|[_ Hk]]; [set_solver|].
  apply lookup_singleton_Some in Hk as [<- _]. set_solver.
Qed.

(** X20. An answer that carries a text has status 200, and the text is not
    empty. *)
Theorem api_ocr_text_not_empty (req : request) (raw_text : str)
    (fields : gmap string (option str)) (status : Z) :
  handler req = (BodyOk raw_text fields, status) →
  raw_text ≠ [] ∧ status = 200.
Proof.
  unfold api_ocr. destruct (obtain req) as [raw|cls msg] eqn:E; [|done].
  cbn [mbind outcome_bind]. rewrite fields_of_ok. cbn [lift mbind outcome_bind].
  intros [= <- _ <-]. split; [|done]. revert E. unfold obtain_text.
  destruct USE_FAKE_TEXT.
  - destruct load_fake_text as [t|]; [|done]. cbn [mbind outcome_bind].
    destruct t; [done|]. by intros [= <-].
  - destruct (read_image req) as [img|]; [|done]. cbn [mbind outcome_bind].
    destruct (run_vision_ocr _ _) as [t|]; [|done]. cbn [mbind outcome_bind].
    destruct t as [|c t]; cbn [truthy_str negb]; intros [= <-];
      [by vm_compute|done].
Qed.

(** X21. With an image and no text from the OCR, the answer has status 200,
    the placeholder as its text, and [None] in the three fields. *)
Theorem api_ocr_no_ocr_result (req : request) (img : bytes) :
  read_image req = Return img →
  run_vision_ocr img (language_hints (default DEFAULT_HINTS OCR_LANGUAGE_HINTS))
    = Return [] →
  api_ocr b64decode false load_fake_text OCR_LANGUAGE_HINTS run_vision_ocr req
  = (BodyOk NO_OCR_RESULT NO_FIELDS, 200).
Proof.
  intros Himg Hocr. unfold api_ocr, obtain_text. rewrite Himg.
  cbn [mbind outcome_bind]. change (u "ja,zh-Hant,en") with DEFAULT_HINTS.
  rewrite Hocr. cbn [mbind outcome_bind truthy_str negb].
  by rewrite fields_of_placeholder.
Qed.

(** X22. With the fake text switched on, the answer is made from the fake
    text alone, whatever the request: status 400 with the text
    [FAKE_TEXT_FILE not found or empty] for an empty text, status 200 with
    the text and its three fields for any other, and status 400 with the
    text of the exception when reading it raises. *)
Theorem api_ocr_fake_text (req : request) :
  api_ocr b64decode true load_fake_text OCR_LANGUAGE_HINTS run_vision_ocr req
  = match load_fake_text with
    | Return [] => (BodyError (Some FAKE_EMPTY), 400)
    | Return raw_text =>
      (BodyOk raw_text
         (<["title" := parse_title raw_text]>
            (<["venue" := parse_venue raw_text]>
               {[ "event_date" := event_date raw_text ]})), 200)
    | Throw _ msg => (BodyError msg, 400)
    end.
Proof.
  unfold api_ocr, obtain_text. destruct load_fake_text as [[|c t]|cls msg].
  - vm_compute. reflexivity.
  - cbn [mbind outcome_bind truthy_str negb]. rewrite fields_of_ok. done.
  - done.
Qed.

(** X23. Without fake text and without an image, the answer has status 400
    and the text [No image provided]. *)
Theorem api_ocr_no_image (req : request) :
  files req !! "image" = None →
  truthy (get_json req) = false ∨ (∃ d, get_json req = VDict d) →
  truthy (default VNone (posted_base64 req)) = false →
  api_ocr b64decode false load_fake_text OCR_LANGUAGE_HINTS run_vision_ocr req
  = (BodyError (Some NO_IMAGE), 400).
Proof.
  intros Hf Hj Hv. unfold api_ocr, obtain_text, read_image_bytes. rewrite Hf.
  rewrite (read_image_get req Hj). cbn [mbind outcome_bind]. by rewrite Hv.
Qed.

End Handler.

Lemma read_image_bytes_missing_witness :
  read_image_bytes b64_as_it_is
    (mkrequest ∅ (VDict [(IMAGE_BASE64, VStr [])]))
  = Throw "ValueError" (Some NO_IMAGE).
Proof.
  apply (read_image_bytes_missing b64_as_it_is).
  - reflexivity.
  - right. by eexists.
  - reflexivity.
Defined.

Lemma read_image_bytes_data_uri_witness :
  read_image_bytes b64_as_it_is
    (mkrequest ∅ (VDict [(IMAGE_BASE64, VStr (u "data:image/png;base64,QUJD"))]))
  = b64_as_it_is (u "QUJD").
Proof.
  apply (read_image_bytes_data_uri b64_as_it_is _
           [(IMAGE_BASE64, VStr (u "data:image/png;base64,QUJD"))]
           (u "data:image/png;base64") (u "QUJD")).
  - reflexivity.
  - reflexivity.
  - vm_compute. reflexivity.
  - apply (bool_decide_unpack _). vm_compute. exact I.
  - vm_compute. reflexivity.
Defined.

Lemma read_image_bytes_plain_witness :
  read_image_bytes b64_as_it_is
    (mkrequest ∅ (VDict [(IMAGE_BASE64, VStr (u "QUJD"))]))
  = b64_as_it_is (u "QUJD").
Proof.
  apply (read_image_bytes_plain b64_as_it_is _
           [(IMAGE_BASE64, VStr (u "QUJD"))] (u "QUJD")).
  - reflexivity.
  - reflexivity.
  - vm_compute. reflexivity.
  - by vm_compute.
  - left. vm_compute. reflexivity.
Defined.

Lemma read_image_bytes_sources_witness :
  let req := mkrequest ∅ (VDict [(IMAGE_BASE64, VStr (u "QUJD"))]) in
  files req !! "image" = Some (u "QUJD") ∨
  (files req !! "image" = None ∧
   ∃ s p, posted_base64 req = Some (VStr s) ∧ s ≠ [] ∧
     suffix p s ∧ b64_as_it_is p = Return (u "QUJD")).
Proof.
  apply (read_image_bytes_sources b64_as_it_is
           (mkrequest ∅ (VDict [(IMAGE_BASE64, VStr (u "QUJD"))])) (u "QUJD")).
  vm_compute. reflexivity.
Defined.

Lemma api_ocr_text_not_empty_witness : u "ライブ" ≠ [] ∧ 200 = 200.
Proof.
  apply (api_ocr_text_not_empty b64_as_it_is true (Return (u "ライブ")) None
           (fun _ _ => Return []) (mkrequest ∅ VNone) (u "ライブ")
           (<["title" := Some (u "ライブ")]>
              (<["venue" := None]> {[ "event_date" := None ]})) 200).
  vm_compute. reflexivity.
Defined.

Lemma api_ocr_no_ocr_result_witness :
  api_ocr b64_as_it_is false (Return []) None (fun _ _ => Return [])
    (mkrequest {[ "image" := [0xFF; 0xD8] ]} VNone)
  = (BodyOk NO_OCR_RESULT NO_FIELDS, 200).
Proof.
  apply (api_ocr_no_ocr_result b64_as_it_is (Return []) None
           (fun _ _ => Return [])
           (mkrequest {[ "image" := [0xFF; 0xD8] ]} VNone) [0xFF; 0xD8]).
  - vm_compute. reflexivity.
  - reflexivity.
Defined.

Lemma api_ocr_no_image_witness :
  api_ocr b64_as_it_is false (Return []) None (fun _ _ => Return [])
    (mkrequest ∅ VNone)
  = (BodyError (Some NO_IMAGE), 400).
Proof.
  apply (api_ocr_no_image b64_as_it_is (Return []) None (fun _ _ => Return [])
           (mkrequest ∅ VNone)).
  - reflexivity.
  - by left.
  - reflexivity.
Defined.
